(** * du: recursive disk usage with hard-link deduplication

    A shallow embedding of [du.c] and the properties of its directory
    walker and inode tracker.

    The C program threads two pieces of mutable state through the whole
    traversal: the [visited_inodes] struct (passed by pointer) and standard
    output.  Both live in a [world]; every C function that touches them is
    a computation in the state-and-outcome monad [M].  The file system and
    the allocator are an [environment] the program runs against; the file
    system does not change during a run.

    The recursion of [getDirectorySize] follows the file system, so the
    embedding takes a recursion budget and answers [Timeout] when it is
    used up.  Undefined behaviour of the C program (a store past the
    array, [readdir] on a null stream, signed overflow) is the outcome
    [Undefined].  The two [calloc] calls are taken to succeed: the
    program does not look at what they return. *)

From Stdlib Require Import ZArith Lia Ascii.
From stdpp Require Import base list strings.

Local Open Scope Z_scope.

(** ** Machine integers

    [int] is 32 bits, [size_t], [ino_t] and [nlink_t] are unsigned 64 bits
    and [blkcnt_t] is signed 64 bits (the LP64 data model).  Values are
    kept in [Z]; every conversion the C code performs is written out. *)

Definition INT_MAX : Z := 2 ^ 31 - 1.

(** Conversion to [int] (what [return total;] does to a [size_t]): the
    value is reduced modulo 2^32 into the range of [int], as the usual
    compilers define it. *)
Definition to_int (x : Z) : Z := (x + 2 ^ 31) mod 2 ^ 32 - 2 ^ 31.

(** Conversion to [size_t]; also the wrap-around of [size_t] arithmetic. *)
Definition to_size_t (x : Z) : Z := x mod 2 ^ 64.

Definition sizeof_ino_t : Z := 8.

Definition TRUE : Z := 1.
Definition FALSE : Z := 0.
Definition INODES_CAPACITY : Z := 16.

(** ** File metadata: the fields of [struct stat] the program reads *)

Record stat_t : Type := {
  st_mode : Z;
  st_ino : Z;
  st_nlink : Z;
  st_blocks : Z
}.

(** The file-type bits of [st_mode], as <sys/stat.h> defines them (octal
    0170000, 0040000, 0100000 and 0120000). *)
Definition S_IFMT : Z := 0xF000.
Definition S_IFDIR : Z := 0x4000.
Definition S_IFREG : Z := 0x8000.
Definition S_IFLNK : Z := 0xA000.

Definition S_ISDIR (m : Z) : bool := Z.land m S_IFMT =? S_IFDIR.
Definition S_ISREG (m : Z) : bool := Z.land m S_IFMT =? S_IFREG.
Definition S_ISLNK (m : Z) : bool := Z.land m S_IFMT =? S_IFLNK.

(** ** The visited-inode array *)

Record visited_inodes : Type := {
  num : Z;          (* number of inodes stored *)
  cap : Z;          (* capacity of the array *)
  arr : list Z      (* the heap block [arr] points to, one element per slot *)
}.

(** ** Output, state and outcomes *)

(** One [printf] call: [printSize] writes a report, the error paths a
    plain message. *)
Inductive line : Type :=
| Report (size : Z) (path : string)
| Text (msg : string).

Record world : Type := {
  visited : visited_inodes;
  stdout : list line
}.

Inductive result (A : Type) : Type :=
| Done (a : A) (w : world)        (* the call returns [a] *)
| Exit (status : Z) (w : world)   (* [exit(status)] was called *)
| Undefined                       (* undefined behaviour was reached *)
| Timeout.                        (* the recursion budget ran out *)

Arguments Done {A} a w.
Arguments Exit {A} status w.
Arguments Undefined {A}.
Arguments Timeout {A}.

Definition M (A : Type) : Type := world -> result A.

Definition ret {A} (a : A) : M A := fun w => Done a w.

Definition bind {A B} (m : M A) (k : A -> M B) : M B := fun w =>
  match m w with
  | Done a w' => k a w'
  | Exit s w' => Exit s w'
  | Undefined => Undefined
  | Timeout => Timeout
  end.

Notation "x <- m ;; k" := (bind m (fun x => k))
  (at level 100, m at next level, right associativity).
Notation "m ;;; k" := (bind m (fun _ => k))
  (at level 100, right associativity).

Definition printf (l : line) : M unit := fun w =>
  Done tt {| visited := visited w; stdout := stdout w ++ [l] |}.

Definition exit {A} (status : Z) : M A := fun w => Exit status w.

Definition get_visited : M visited_inodes := fun w => Done (visited w) w.

Definition put_visited (v : visited_inodes) : M unit := fun w =>
  Done tt {| visited := v; stdout := stdout w |}.

(** ** The environment: file system and allocator *)

Record environment : Type := {
  (** [opendir] followed by [readdir] until it returns NULL: the entry
      names in the order they are yielded; [None] when [opendir] returns
      NULL. *)
  opendir : string -> option (list string);
  (** The buffer [lstat] fills in.  The program ignores [lstat]'s return
      value, so for a path on which it fails this is whatever the
      uninitialised buffer holds. *)
  lstat : string -> stat_t;
  (** What [stat], which follows symbolic links, finds at the path;
      [None] when it fails. *)
  stat : string -> option stat_t;
  (** Whether [realloc] grants a block of the given size in bytes. *)
  realloc_ok : Z -> bool;
  (** Content of the slots a grown block gains. *)
  uninit : Z
}.

Section Program.

Context (env : environment).

(** ** Inode tracker *)

Definition addInode (inode : Z) : M unit :=
  v <- get_visited ;;
  (* visited->arr[visited->num++] = inode; *)
  if decide (0 <= num v < Z.of_nat (length (arr v))) then
    let arr1 := <[Z.to_nat (num v) := inode]> (arr v) in
    let num1 := num v + 1 in
    (* Resize the array if we've reached capacity. *)
    if num1 =? cap v then
      if INT_MAX <? cap v * 2 then (fun _ => Undefined)   (* signed overflow *)
      else
        let cap1 := cap v * 2 in
        if realloc_ok env (to_size_t (cap1 * sizeof_ino_t)) then
          put_visited {| num := num1; cap := cap1;
                         arr := resize (Z.to_nat cap1) (uninit env) arr1 |}
        else
          put_visited {| num := num1; cap := cap1; arr := arr1 |} ;;;
          printf (Text "addInode(): error reallocing") ;;;
          exit 1
    else
      put_visited {| num := num1; cap := cap v; arr := arr1 |}
  else (fun _ => Undefined).                              (* write out of bounds *)

(** The scan [for (i = 0; i < visited->num; i++)], from index [i] with
    [n] iterations left. *)
Fixpoint isInodeVisited_loop (a : list Z) (inode : Z) (i n : nat) : Z :=
  match n with
  | O => FALSE
  | S n' =>
      match a !! i with
      | Some x => if inode =? x then TRUE
                  else isInodeVisited_loop a inode (S i) n'
      | None => FALSE
      end
  end.

Definition isInodeVisited (v : visited_inodes) (inode : Z) : Z :=
  isInodeVisited_loop (arr v) inode 0 (Z.to_nat (num v)).

(** ** Reporting and paths *)

Definition printSize (path : string) (size : Z) : M unit :=
  printf (Report size path).

Definition createPath (parent_path child_path : string) : string :=
  parent_path +:+ "/" +:+ child_path.

(** ** Directory walker *)

Definition getFileSize (file_stat : stat_t) : M Z :=
  if 1 <? st_nlink file_stat then
    v <- get_visited ;;
    if negb (isInodeVisited v (st_ino file_stat) =? 0) then ret 0
    else
      addInode (st_ino file_stat) ;;;
      ret (to_int (st_blocks file_stat ÷ 2))
  else ret (to_int (st_blocks file_stat ÷ 2)).

(** One iteration of the [readdir] loop of [getDirectorySize]: the
    running total after the entry named [entry_name].  [recurse] is the
    recursive call. *)
Definition scan_entry (recurse : string -> M Z) (path : string)
    (all_files : Z) (total : Z) (entry_name : string) : M Z :=
  (* Skip "..", (the directory above) to avoid cycles. *)
  if String.eqb ".." entry_name then ret total
  else
    let curr_path := createPath path entry_name in
    let entry_stat := lstat env curr_path in
    (* Skip "." (the current directory) *)
    if String.eqb "." entry_name then
      ret (to_size_t (total + st_blocks entry_stat ÷ 2))
    else if S_ISDIR (st_mode entry_stat) then
      r <- recurse curr_path ;;
      let size := to_size_t r in
      printSize curr_path size ;;;
      ret (to_size_t (total + size))
    else if S_ISREG (st_mode entry_stat) then
      r <- getFileSize entry_stat ;;
      let size := to_size_t r in
      (if all_files =? TRUE then printSize curr_path size else ret tt) ;;;
      ret (to_size_t (total + size))
    else ret total.

Fixpoint scan_entries (body : Z -> string -> M Z) (total : Z)
    (entries : list string) : M Z :=
  match entries with
  | [] => ret total
  | dir_entry :: rest =>
      total' <- body total dir_entry ;; scan_entries body total' rest
  end.

Fixpoint getDirectorySize (fuel : nat) (path : string) (all_files : Z)
    : M Z :=
  match fuel with
  | O => fun _ => Timeout
  | S fuel' =>
      match opendir env path with
      | None => fun _ => Undefined            (* readdir(NULL) *)
      | Some entries =>
          total <- scan_entries
                     (scan_entry (fun p => getDirectorySize fuel' p all_files)
                                 path all_files)
                     0 entries ;;
          ret (to_int total)
      end
  end.

(** ** Top level *)

Definition printUsage : M unit :=
  printf (Text "Usage: du [DIRECTORY]") ;;;
  printf (Text "Recursively summarize disk usage for directories.").

(** [&path[i]], the string from index [i] on, and [path] cut by
    [path[i] = 0]. *)
Definition from_index (path : string) (i : nat) : string :=
  String.substring i (String.length path - i) path.
Definition cut_at (path : string) (i : nat) : string :=
  String.substring 0 i path.

(** The loop of [trimPath], at index [i]; [path] is updated in place. *)
Fixpoint trimPath_loop (path : string) (i : nat) (slash : Z) : string * Z :=
  match i with
  | O => (path, slash)
  | S i' =>
      if String.eqb (from_index path i) "/"
      then trimPath_loop (cut_at path i) i' TRUE
      else (path, slash)
  end.

(** [trimPath]: the trimmed path and the value returned. *)
Definition trimPath (path : string) : string * Z :=
  trimPath_loop path (String.length path - 1) FALSE.

Definition doesPathExist (path : string) : bool :=
  match stat env path with
  | Some path_stat => true
  | None => false
  end.

(** [strcmp(arg, "-a") == 0 || strcmp(arg, "--all") == 0] *)
Definition is_all (arg : string) : bool :=
  String.eqb arg "-a" || String.eqb arg "--all".

Definition parseOptions (argc : Z) (argv : list string) : Z :=
  if argc =? 3 then
    if is_all (nth 2 argv "") then TRUE
    else if is_all (nth 1 argv "") then TRUE
    else FALSE
  else if argc =? 2 then
    if is_all (nth 1 argv "") then TRUE else FALSE
  else FALSE.

Definition parsePath (argc : Z) (argv : list string) : string :=
  if argc =? 3 then
    if negb (is_all (nth 2 argv "")) then nth 2 argv ""
    else if negb (is_all (nth 1 argv "")) then nth 1 argv ""
    else "."
  else if argc =? 2 then
    if negb (is_all (nth 1 argv "")) then nth 1 argv "" else "."
  else ".".

Definition visited_init : visited_inodes :=
  {| num := 0; cap := INODES_CAPACITY;
     arr := replicate (Z.to_nat INODES_CAPACITY) 0 |}.

Definition main (fuel : nat) (argv : list string) : M Z :=
  let argc := Z.of_nat (length argv) in
  if 3 <? argc then printUsage ;;; exit 0
  else
    let all_files := parseOptions argc argv in
    let path := parsePath argc argv in
    (* Trim path and check if it exists. *)
    let trimmed := trimPath path in
    let path := fst trimmed in
    let slash := snd trimmed in
    if negb (doesPathExist path) then
      printf (Text "Error: path does not exist") ;;; exit 1
    else
      put_visited visited_init ;;;
      (* Get the size of the directory. *)
      size <- getDirectorySize fuel path all_files ;;
      (* Concatenate a "/" to the path if necessary *)
      let path := if slash =? TRUE then path +:+ "/" else path in
      (* Print the size of the directory. *)
      printSize path (to_size_t size) ;;;
      ret 0.

End Program.

Arguments addInode env inode w : simpl never.

(** ** [createPath] at the level of its buffer

    [createPath] above is the string the function returns.  Below are the
    bytes behind it: the block [calloc] hands out and the three [strncat]
    calls that fill it.  A store outside the block, or an [int] sum out of
    range, gives [None]. *)

Definition sizeof_char_ptr : Z := 8.

Definition NUL : ascii := "000"%char.

(** [calloc(nmemb, size)], granted: a zeroed block of [nmemb * size]
    bytes. *)
Definition calloc (nmemb size : Z) : list ascii :=
  replicate (Z.to_nat (nmemb * size)) NUL.

(** [strlen] on a block: the index of its first NUL. *)
Fixpoint strlen (block : list ascii) : option nat :=
  match block with
  | [] => None
  | c :: block' => if Ascii.eqb c NUL then Some O else S <$> strlen block'
  end.

(** [block[i] = c] *)
Definition poke (block : list ascii) (i : nat) (c : ascii)
    : option (list ascii) :=
  if decide (i < length block)%nat then Some (<[i := c]> block) else None.

(** The copy loop of [strncat], writing at index [i]: up to [n]
    characters of [src], as far as its terminator, then a NUL. *)
Fixpoint strncat_from (block : list ascii) (i : nat) (src : string) (n : nat)
    : option (list ascii) :=
  match n, src with
  | S n', String c src' =>
      if Ascii.eqb c NUL then poke block i NUL
      else block' ← poke block i c; strncat_from block' (S i) src' n'
  | _, _ => poke block i NUL
  end.

Definition strncat (dest : list ascii) (src : string) (n : Z)
    : option (list ascii) :=
  i ← strlen dest; strncat_from dest i src (Z.to_nat (to_size_t n)).

(** The string a block holds: its bytes up to the first NUL. *)
Fixpoint string_in (block : list ascii) : string :=
  match block with
  | [] => ""
  | c :: block' =>
      if Ascii.eqb c NUL then "" else String c (string_in block')
  end.

Definition createPath_block (parent_path child_path : string)
    : option (list ascii) :=
  (* Allocate space for full_path. *)
  let parent_len := to_int (Z.of_nat (String.length parent_path)) in
  let child_len := to_int (Z.of_nat (String.length child_path)) in
  if INT_MAX <? parent_len + child_len + 1 then None
  else
    let full_path := calloc (parent_len + child_len + 1) sizeof_char_ptr in
    (* Populate full_path. *)
    full_path ← strncat full_path parent_path parent_len;
    full_path ← strncat full_path "/" 1;
    strncat full_path child_path child_len.

(** * Vocabulary of the properties *)

(** ** Tracker and worlds *)

(** The inodes the tracker holds: the first [num] slots of [arr]. *)
Definition recorded (v : visited_inodes) : list Z :=
  take (Z.to_nat (num v)) (arr v).

(** The representation invariant of the struct: there is always a free
    slot for the next [addInode], and [cap] is the size of the block. *)
Definition tracker_ok (v : visited_inodes) : Prop :=
  0 <= num v < cap v /\ Z.of_nat (length (arr v)) = cap v.

Definition with_visited (w : world) (v : visited_inodes) : world :=
  {| visited := v; stdout := stdout w |}.

(** The world after [printSize path size]. *)
Definition reported (w : world) (size : Z) (path : string) : world :=
  {| visited := visited w; stdout := stdout w ++ [Report size path] |}.

(** ** Entries and what they contribute *)

(** The five kinds of entry the loop body distinguishes, in the order it
    tests them. *)
Inductive entry_kind : Type :=
| Parent | Self | Subdir | Regular | Other.

Definition classify (env : environment) (path entry_name : string)
    : entry_kind :=
  if String.eqb ".." entry_name then Parent
  else if String.eqb "." entry_name then Self
  else
    let m := st_mode (lstat env (createPath path entry_name)) in
    if S_ISDIR m then Subdir else if S_ISREG m then Regular else Other.

(** The on-disk allocation of an entry in storage units of two blocks. *)
Definition allocation (s : stat_t) : Z := st_blocks s ÷ 2.

(** The lines a scan may print: the report of a subdirectory entry, or of
    a regular-file entry when all files are reported. *)
Definition report_of (env : environment) (all_files : Z) (l : line) : Prop :=
  exists size path entries name,
    l = Report size (createPath path name) /\
    opendir env path = Some entries /\ name ∈ entries /\
    (classify env path name = Subdir \/
     (classify env path name = Regular /\ all_files = TRUE)).

(** An outcome with everything written to standard output forgotten:
    what is left is the returned value or exit status and the tracker. *)
Definition silent {A} (r : result A) : result A :=
  match r with
  | Done a w => Done a {| visited := visited w; stdout := [] |}
  | Exit s w => Exit s {| visited := visited w; stdout := [] |}
  | Undefined => Undefined
  | Timeout => Timeout
  end.

(** ** Finite trees *)

(** A finite directory tree: below [path], following subdirectory entries
    (and only those: not ".", not "..", not symbolic links) always comes to
    an end.  Nothing is asked of the "." and ".." entries themselves. *)
Inductive finite_tree (env : environment) : string -> Prop :=
| finite_tree_intro (path : string) :
    (forall entries name,
        opendir env path = Some entries -> name ∈ entries ->
        classify env path name = Subdir ->
        finite_tree env (createPath path name)) ->
    finite_tree env path.

(** [getDirectorySize] on [path] needs a recursion budget of at most [n]. *)
Definition terminates_within (env : environment) (n : nat) (path : string)
    : Prop :=
  forall fuel all_files w,
    (n <= fuel)%nat -> getDirectorySize env fuel path all_files w <> Timeout.

(** ** Contributions to the total of one directory *)

Definition kind_eqb (a b : entry_kind) : bool :=
  match a, b with
  | Parent, Parent | Self, Self | Subdir, Subdir
  | Regular, Regular | Other, Other => true
  | _, _ => false
  end.

(** What one entry contributes to the total of the directory being
    scanned, in exact arithmetic, following the description of the walker:
    nothing for "..", the directory's own allocation for ".", the subtotal
    for a subdirectory, the allocation of a regular file unless it is
    deduplicated away, nothing for anything else. *)
Definition contribution (env : environment) (recurse : string -> M Z)
    (path : string) (all_files : Z) (name : string) : M (entry_kind * Z) :=
  let child := createPath path name in
  let st := lstat env child in
  match classify env path name with
  | Parent => ret (Parent, 0)
  | Self => ret (Self, allocation st)
  | Subdir =>
      subtotal <- recurse child ;;
      printSize child (to_size_t subtotal) ;;;
      ret (Subdir, subtotal)
  | Regular =>
      before <- get_visited ;;
      r <- getFileSize env st ;;
      (if all_files =? TRUE then printSize child (to_size_t r) else ret tt) ;;;
      let deduplicated :=
        (1 <? st_nlink st) && negb (isInodeVisited before (st_ino st) =? 0) in
      ret (Regular, if deduplicated then 0 else allocation st)
  | Other => ret (Other, 0)
  end.

Fixpoint contributions (env : environment) (recurse : string -> M Z)
    (path : string) (all_files : Z) (names : list string)
    : M (list (entry_kind * Z)) :=
  match names with
  | [] => ret []
  | name :: rest =>
      c <- contribution env recurse path all_files name ;;
      cs <- contributions env recurse path all_files rest ;;
      ret (c :: cs)
  end.

(** The sum of the contributions of one kind. *)
Fixpoint sum_of (k : entry_kind) (cs : list (entry_kind * Z)) : Z :=
  match cs with
  | [] => 0
  | c :: rest => (if kind_eqb (fst c) k then snd c else 0) + sum_of k rest
  end.

Definition directory_sum (cs : list (entry_kind * Z)) : Z :=
  sum_of Self cs + sum_of Regular cs + sum_of Subdir cs.

(** How often "." is listed. *)
Definition self_entries (entries : list string) : nat :=
  length (filter (fun name => name = ".") entries).

(** ** The entries below a directory, counted exactly *)

(** The entries a traversal accounts for, in the order it meets them: the
    "." entry of each directory and each regular file. *)
Inductive item : Type :=
| Own (s : stat_t)
| File (s : stat_t).

Fixpoint census (env : environment) (fuel : nat) (path : string)
    : list item :=
  match fuel with
  | O => []
  | S fuel' =>
      match opendir env path with
      | None => []
      | Some entries =>
          flat_map
            (fun name =>
               let child := createPath path name in
               match classify env path name with
               | Self => [Own (lstat env child)]
               | Subdir => census env fuel' child
               | Regular => [File (lstat env child)]
               | Parent | Other => []
               end)
            entries
      end
  end.

(** The exact number of storage units of a list of entries when every
    inode with several links is counted at its first occurrence only and
    the inodes in [seen] not at all. *)
Fixpoint counted (seen : list Z) (items : list item) : Z :=
  match items with
  | [] => 0
  | Own s :: rest => allocation s + counted seen rest
  | File s :: rest =>
      if 1 <? st_nlink s then
        if decide (st_ino s ∈ seen) then counted seen rest
        else allocation s + counted (seen ++ [st_ino s]) rest
      else allocation s + counted seen rest
  end.

Fixpoint seen_after (seen : list Z) (items : list item) : list Z :=
  match items with
  | [] => seen
  | Own s :: rest => seen_after seen rest
  | File s :: rest =>
      if 1 <? st_nlink s then
        if decide (st_ino s ∈ seen) then seen_after seen rest
        else seen_after (seen ++ [st_ino s]) rest
      else seen_after seen rest
  end.

(** Whether an item is a name of inode [i]. *)
Definition links_to (i : Z) (x : item) : bool :=
  match x with
  | Own _ => false
  | File s => st_ino s =? i
  end.

(** The entries with every name of inode [i] taken out. *)
Definition without (i : Z) (items : list item) : list item :=
  List.filter (fun x => negb (links_to i x)) items.

(** ** Runs that return *)

(** A finite tree all of whose directories can be opened. *)
Inductive readable_tree (env : environment) : string -> Prop :=
| readable_tree_intro (path : string) (entries : list string) :
    opendir env path = Some entries ->
    (forall name,
        name ∈ entries -> classify env path name = Subdir ->
        readable_tree env (createPath path name)) ->
    readable_tree env path.

(** An allocator that grants every block an [int] capacity can ask for. *)
Definition generous (env : environment) : Prop :=
  forall size, 0 <= size <= 2 ^ 34 -> realloc_ok env size = true.

(** The tracker has room, in [int], for as many inodes as [items] can
    bring. *)
Definition fits (v : visited_inodes) (items : list item) : Prop :=
  num v + Z.of_nat (length items) < 2 ^ 30 - 1.

(** With a budget of [n] or more, [getDirectorySize] on [path] returns. *)
Definition returns_within (env : environment) (n : nat) (path : string)
    : Prop :=
  forall fuel all_files w,
    (n <= fuel)%nat ->
    tracker_ok (visited w) -> fits (visited w) (census env fuel path) ->
    exists t w',
      getDirectorySize env fuel path all_files w = Done t w' /\
      tracker_ok (visited w') /\
      num (visited w') <=
        num (visited w) + Z.of_nat (length (census env fuel path)).

(** ** Paths and the order of reports *)

(** [path] lies beneath the directory [dir]. *)
Definition beneath (dir path : string) : Prop :=
  exists rest, path = dir +:+ "/" +:+ rest.

Fixpoint slash_free (s : string) : bool :=
  match s with
  | EmptyString => true
  | String c s' => negb (Ascii.eqb c "/"%char) && slash_free s'
  end.

(** What a file system guarantees about the names [readdir] yields:
    each entry is listed once, and no name contains a separator. *)
Definition names_ok (env : environment) : Prop :=
  forall path entries,
    opendir env path = Some entries ->
    NoDup entries /\ Forall (fun name => slash_free name = true) entries.

(** The paths a scan reports, depth first, each directory after
    everything beneath it. *)
Fixpoint printed_paths (env : environment) (all_files : Z) (fuel : nat)
    (path : string) : list string :=
  match fuel with
  | O => []
  | S fuel' =>
      match opendir env path with
      | None => []
      | Some entries =>
          flat_map
            (fun name =>
               let child := createPath path name in
               match classify env path name with
               | Subdir => printed_paths env all_files fuel' child ++ [child]
               | Regular => if all_files =? TRUE then [child] else []
               | Parent | Self | Other => []
               end)
            entries
      end
  end.

(** Children before parents, on paths and on report lines: whatever lies
    beneath a reported path has been reported earlier. *)
Definition ordered (paths : list string) : Prop :=
  forall (i j : nat) (p q : string),
    paths !! i = Some p -> paths !! j = Some q -> beneath p q -> (j < i)%nat.

Definition children_first (out : list line) : Prop :=
  forall (i j : nat) (si sj : Z) (p q : string),
    out !! i = Some (Report si p) -> out !! j = Some (Report sj q) ->
    beneath p q -> (j < i)%nat.

Definition reports (out : list line) (paths : list string) : Prop :=
  Forall2 (fun l p => exists size, l = Report size p) out paths.

(** A path at or beneath the entry [name] of [dir]. *)
Definition within (dir name path : string) : Prop :=
  path = createPath dir name \/ beneath (createPath dir name) path.

(** The lines printed for one entry, as paths. *)
Definition entry_paths (env : environment) (all_files : Z) (fuel : nat)
    (path name : string) : list string :=
  let child := createPath path name in
  match classify env path name with
  | Subdir => printed_paths env all_files fuel child ++ [child]
  | Regular => if all_files =? TRUE then [child] else []
  | Parent | Self | Other => []
  end.

(** ** Command line *)

(** A run of [k] path separators. *)
Fixpoint slashes (k : nat) : string :=
  match k with
  | O => ""
  | S k' => String "/"%char (slashes k')
  end.

(** A path that [trimPath] has nothing to take from: it does not end in a
    separator, unless it is the separator alone. *)
Definition trimmed (path : string) : Prop :=
  forall q, path = q +:+ "/" -> q = "".

(** ** The ways a run stops *)

(** The process was stopped by [addInode]: status 1, the message is the
    last thing printed after [before], the array had just become full
    and the block of twice the capacity was refused. *)
Definition stopped_in_growth (env : environment) (before : list line)
    (status : Z) (w' : world) : Prop :=
  status = 1 /\
  (exists out,
      stdout w' = before ++ out ++ [Text "addInode(): error reallocing"]) /\
  cap (visited w') = 2 * num (visited w') /\
  realloc_ok env (to_size_t (cap (visited w') * sizeof_ino_t)) = false.

(** ** The shape of the array *)

(** The capacity is the initial one doubled some number of times, and
    beyond the initial one it is at most twice the number of inodes held. *)
Definition cap_shape (v : visited_inodes) : Prop :=
  (exists k : nat, cap v = INODES_CAPACITY * 2 ^ Z.of_nat k) /\
  (cap v = INODES_CAPACITY \/ cap v <= 2 * num v).

(** ** Directories that cannot be opened *)

(** [path], or a directory reached from it through subdirectory entries,
    cannot be opened. *)
Inductive blocked (env : environment) : string -> Prop :=
| blocked_here (path : string) :
    opendir env path = None -> blocked env path
| blocked_below (path : string) (entries : list string) (name : string) :
    opendir env path = Some entries -> name ∈ entries ->
    classify env path name = Subdir ->
    blocked env (createPath path name) ->
    blocked env path.

(** ** The order of the listings *)

(** Two environments with the same files, their directories listed in a
    different order. *)
Definition reordered (env1 env2 : environment) : Prop :=
  (forall p, lstat env1 p = lstat env2 p) /\
  (forall p,
      match opendir env1 p, opendir env2 p with
      | Some entries1, Some entries2 => entries1 ≡ₚ entries2
      | None, None => True
      | _, _ => False
      end).

(** Names of one inode agree on its allocation. *)
Definition consistent (items : list item) : Prop :=
  forall s1 s2,
    File s1 ∈ items -> File s2 ∈ items -> st_ino s1 = st_ino s2 ->
    1 < st_nlink s1 -> 1 < st_nlink s2 -> allocation s1 = allocation s2.

(** ** Strings as C has them *)

(** A string without a NUL character inside. *)
Fixpoint nul_free (s : string) : bool :=
  match s with
  | EmptyString => true
  | String c s' => negb (Ascii.eqb c NUL) && nul_free s'
  end.

(** ** Lines and their paths *)

(** No two lines report the same path. *)
Definition distinct_paths (out : list line) : Prop :=
  forall (i j : nat) (si sj : Z) (p : string),
    out !! i = Some (Report si p) -> out !! j = Some (Report sj p) -> i = j.

(** ** Sizes as printed *)

(** A size that went through an [int] before it was printed as a
    [size_t]: below 2^31, or a negative number read as unsigned. *)
Definition int_sized (size : Z) : Prop :=
  0 <= size < 2 ^ 31 \/ 2 ^ 64 - 2 ^ 31 <= size < 2 ^ 64.

Definition int_sized_line (l : line) : Prop :=
  exists size path, l = Report size path /\ int_sized size.

(** ** Sample trees

    Concrete environments the general statements are instantiated on. *)

Module Sample.

Definition lookup {A} (table : list (string * A)) (key : string)
    : option A :=
  snd <$> List.find (fun kv => String.eqb key (fst kv)) table.

Definition dir_stat (ino blocks : Z) : stat_t :=
  {| st_mode := 0x41ED; st_ino := ino; st_nlink := 2; st_blocks := blocks |}.
Definition reg_stat (ino nlink blocks : Z) : stat_t :=
  {| st_mode := 0x81A4; st_ino := ino; st_nlink := nlink;
     st_blocks := blocks |}.
Definition lnk_stat (ino : Z) : stat_t :=
  {| st_mode := 0xA1FF; st_ino := ino; st_nlink := 1; st_blocks := 0 |}.
Definition no_stat : stat_t :=
  {| st_mode := 0; st_ino := 0; st_nlink := 0; st_blocks := 0 |}.

(** An environment from a table of directory listings and a table of
    [lstat] results; every symbolic link of the samples points to [d].
    The allocator grants blocks of up to [limit] bytes. *)
Definition make_env (listings : list (string * list string))
    (stats : list (string * stat_t)) (limit : Z) : environment :=
  {| opendir p := lookup listings p;
     lstat p := default no_stat (lookup stats p);
     stat p :=
       match lookup stats p with
       | Some s => if S_ISLNK (st_mode s) then lookup stats "d" else Some s
       | None => None
       end;
     realloc_ok size := size <=? limit;
     uninit := 0 |}.

(** [d] holds a subdirectory [sub], a singly linked file [f], two names
    [a] and [b] of one inode that has a third name [sub/c], and a symbolic
    link [lnk] back to [d] itself. *)
Definition listings : list (string * list string) :=
  [ ("d", [ "."; ".."; "sub"; "f"; "a"; "b"; "lnk" ]);
    ("d/sub", [ ".."; "."; "c" ]);
    (* [opendir] follows the link *)
    ("d/lnk", [ "."; ".."; "sub"; "f"; "a"; "b"; "lnk" ]) ].

Definition stats : list (string * stat_t) :=
  [ ("d", dir_stat 1 8); ("d/.", dir_stat 1 8); ("d/..", dir_stat 100 8);
    ("d/sub", dir_stat 2 8); ("d/sub/.", dir_stat 2 8);
    ("d/sub/..", dir_stat 1 8);
    ("d/f", reg_stat 3 1 2);
    ("d/a", reg_stat 7 3 8); ("d/b", reg_stat 7 3 8);
    ("d/sub/c", reg_stat 7 3 8);
    ("d/lnk", lnk_stat 9) ].

Definition env : environment := make_env listings stats (2 ^ 40).

(** A directory [big] with one file of 2 TiB (2^32 blocks of 512 bytes). *)
Definition big_env : environment :=
  make_env [ ("big", [ "."; ".."; "image" ]) ]
           [ ("big", dir_stat 1 8); ("big/.", dir_stat 1 8);
             ("big/..", dir_stat 100 8);
             ("big/image", reg_stat 5 1 (2 ^ 32)) ]
           (2 ^ 40).

(** A directory [vol] with two files of 1 TiB each. *)
Definition twin_env : environment :=
  make_env [ ("vol", [ "."; ".."; "x"; "y" ]) ]
           [ ("vol", dir_stat 1 8); ("vol/.", dir_stat 1 8);
             ("vol/..", dir_stat 100 8);
             ("vol/x", reg_stat 5 1 (2 ^ 31));
             ("vol/y", reg_stat 6 1 (2 ^ 31)) ]
           (2 ^ 40).

(** A directory [pair] with two names [p] and [q] of one 2 TiB file. *)
Definition pair_env : environment :=
  make_env [ ("pair", [ "."; ".."; "p"; "q" ]) ]
           [ ("pair", dir_stat 1 8); ("pair/.", dir_stat 1 8);
             ("pair/..", dir_stat 100 8);
             ("pair/p", reg_stat 5 2 (2 ^ 32));
             ("pair/q", reg_stat 5 2 (2 ^ 32)) ]
           (2 ^ 40).

(** A directory [top] with a subdirectory [locked] that cannot be opened,
    listed before a file [f]. *)
Definition locked_env : environment :=
  make_env [ ("top", [ "."; ".."; "locked"; "f" ]) ]
           [ ("top", dir_stat 1 8); ("top/.", dir_stat 1 8);
             ("top/..", dir_stat 100 8);
             ("top/locked", dir_stat 2 8);
             ("top/f", reg_stat 3 1 2) ]
           (2 ^ 40).

(** The tree of [env] with the entries of [d] listed in another order. *)
Definition shuffled_env : environment :=
  make_env [ ("d", [ "b"; "lnk"; "."; "a"; "f"; "sub"; ".." ]);
             ("d/sub", [ "c"; "."; ".." ]);
             ("d/lnk", [ "lnk"; "."; ".."; "sub"; "f"; "a"; "b" ]) ]
           stats (2 ^ 40).


(** A tracker one store away from being full. *)
Definition almost_full : world :=
  {| visited := {| num := 15; cap := 16;
                   arr := [1; 2; 3; 4; 5; 6; 7; 8; 9; 10; 11; 12; 13; 14; 15; 0] |};
     stdout := [] |}.

Definition start : world :=
  {| visited := {| num := 0; cap := 0; arr := [] |}; stdout := [] |}.

Definition fresh : world := {| visited := visited_init; stdout := [] |}.

End Sample.

(** * Properties *)

(** ** Integer conversions *)

Lemma to_int_small (x : Z) : - 2 ^ 31 <= x <= INT_MAX -> to_int x = x.
Proof.
  unfold to_int, INT_MAX. intros H.
  rewrite Z.mod_small; lia.
Qed.

Lemma to_size_t_small (x : Z) : 0 <= x < 2 ^ 64 -> to_size_t x = x.
Proof. unfold to_size_t. intros H. apply Z.mod_small. exact H. Qed.

Lemma to_size_t_range (x : Z) : 0 <= to_size_t x < 2 ^ 64.
Proof. unfold to_size_t. apply Z.mod_pos_bound. lia. Qed.

Lemma to_size_t_add_l (x y : Z) :
  to_size_t (to_size_t x + y) = to_size_t (x + y).
Proof. unfold to_size_t. apply Zplus_mod_idemp_l. Qed.

Lemma to_size_t_add_r (x y : Z) :
  to_size_t (x + to_size_t y) = to_size_t (x + y).
Proof. unfold to_size_t. apply Zplus_mod_idemp_r. Qed.

Lemma to_size_t_idemp (x : Z) : to_size_t (to_size_t x) = to_size_t x.
Proof. unfold to_size_t. apply Zmod_mod. Qed.

Lemma to_int_to_size_t (x : Z) : to_int (to_size_t x) = to_int x.
Proof.
  unfold to_int, to_size_t. f_equal.
  rewrite (Z.mod_eq x (2 ^ 64)) by lia.
  replace (x - 2 ^ 64 * (x / 2 ^ 64) + 2 ^ 31)
    with (x + 2 ^ 31 + (- 2 ^ 32 * (x / 2 ^ 64)) * 2 ^ 32) by lia.
  apply Z_mod_plus_full.
Qed.

(** ** The monad *)

Lemma bind_Done {A B} (m : M A) (k : A -> M B) w b w2 :
  bind m k w = Done b w2 <->
  exists a w1, m w = Done a w1 /\ k a w1 = Done b w2.
Proof.
  unfold bind. split.
  - destruct (m w) as [a w1| | |] eqn:E; try discriminate. eauto.
  - intros (a & w1 & -> & H). exact H.
Qed.

Lemma bind_Timeout {A B} (m : M A) (k : A -> M B) w :
  bind m k w = Timeout <->
  m w = Timeout \/ exists a w1, m w = Done a w1 /\ k a w1 = Timeout.
Proof.
  unfold bind. split.
  - destruct (m w) as [a w1| | |] eqn:E; try discriminate; eauto.
  - intros [-> | (a & w1 & -> & H)]; auto.
Qed.

(** ** Inode tracker *)

Lemma isInodeVisited_loop_spec (a : list Z) (inode : Z) (n i : nat) :
  (i + n <= length a)%nat ->
  isInodeVisited_loop a inode i n =
    if decide (inode ∈ take n (drop i a)) then TRUE else FALSE.
Proof.
  revert i. induction n as [|n IH]; intros i Hlen; simpl.
  - reflexivity.
  - destruct (a !! i) as [x|] eqn:Hx.
    + rewrite (drop_S _ _ _ Hx). simpl.
      destruct (Z.eqb_spec inode x) as [->|Hne].
      * rewrite decide_True by constructor. reflexivity.
      * rewrite IH by lia.
        case_decide as H1; case_decide as H2; try reflexivity.
        -- exfalso. apply H2. now constructor.
        -- exfalso. apply H1. inversion H2; subst; [congruence | assumption].
    + apply lookup_ge_None in Hx. lia.
Qed.

Lemma isInodeVisited_spec (v : visited_inodes) (inode : Z) :
  tracker_ok v ->
  isInodeVisited v inode =
    if decide (inode ∈ recorded v) then TRUE else FALSE.
Proof.
  intros [Hn Hl]. unfold isInodeVisited, recorded.
  rewrite isInodeVisited_loop_spec by (simpl; lia).
  rewrite drop_0. reflexivity.
Qed.

Lemma tracker_ok_init : tracker_ok visited_init.
Proof. unfold tracker_ok, visited_init, INODES_CAPACITY. simpl. lia. Qed.

Lemma recorded_init : recorded visited_init = [].
Proof. reflexivity. Qed.

Lemma recorded_store (v : visited_inodes) (inode : Z) (a : list Z) :
  0 <= num v < Z.of_nat (length (arr v)) ->
  take (Z.to_nat (num v) + 1) (<[Z.to_nat (num v) := inode]> (arr v) ++ a)
  = recorded v ++ [inode].
Proof.
  intros Hn. unfold recorded.
  assert (Hlt : (Z.to_nat (num v) < length (arr v))%nat) by lia.
  rewrite take_app_le by (rewrite length_insert; lia).
  rewrite Nat.add_1_r.
  erewrite take_S_r by (apply list_lookup_insert_eq; exact Hlt).
  rewrite take_insert_ge by lia. reflexivity.
Qed.

Section Tracker.

Context (env : environment).

(** What [addInode] does on a well-formed tracker, case by case. *)
Lemma addInode_cases (inode : Z) (w : world) :
  let v := visited w in
  let arr1 := <[Z.to_nat (num v) := inode]> (arr v) in
  tracker_ok v ->
  addInode env inode w =
    if num v + 1 =? cap v then
      if INT_MAX <? cap v * 2 then Undefined
      else if realloc_ok env (to_size_t (cap v * 2 * sizeof_ino_t)) then
        Done tt (with_visited w
                   {| num := num v + 1; cap := cap v * 2;
                      arr := arr1 ++ replicate (Z.to_nat (cap v)) (uninit env) |})
      else
        Exit 1 {| visited := {| num := num v + 1; cap := cap v * 2; arr := arr1 |};
                  stdout := stdout w ++ [Text "addInode(): error reallocing"] |}
    else
      Done tt (with_visited w {| num := num v + 1; cap := cap v; arr := arr1 |}).
Proof.
  intros v arr1 [Hn Hl]. unfold addInode, bind, get_visited.
  fold v. rewrite decide_True by lia. fold arr1.
  destruct (num v + 1 =? cap v) eqn:Hfull; [|reflexivity].
  destruct (INT_MAX <? cap v * 2) eqn:Hov; [reflexivity|].
  destruct (realloc_ok env _) eqn:Hre; [|reflexivity].
  unfold put_visited, with_visited. do 3 f_equal.
  rewrite resize_ge by (unfold arr1; rewrite length_insert; lia).
  do 2 f_equal. unfold arr1. rewrite length_insert. lia.
Qed.

Lemma addInode_Done (inode : Z) (w w' : world) (u : unit) :
  tracker_ok (visited w) ->
  addInode env inode w = Done u w' ->
  tracker_ok (visited w') /\
  recorded (visited w') = recorded (visited w) ++ [inode] /\
  stdout w' = stdout w.
Proof.
  intros Hok. pose proof Hok as [Hn Hl]. destruct u.
  rewrite addInode_cases by exact Hok.
  assert (Hst : forall a,
             take (Z.to_nat (num (visited w) + 1))
               (<[Z.to_nat (num (visited w)) := inode]> (arr (visited w)) ++ a)
             = recorded (visited w) ++ [inode]).
  { intros a. rewrite Z2Nat.inj_add by lia.
    apply recorded_store. lia. }
  destruct (num (visited w) + 1 =? cap (visited w)) eqn:Hfull.
  - apply Z.eqb_eq in Hfull.
    destruct (INT_MAX <? _); [discriminate|].
    destruct (realloc_ok env _); [|discriminate].
    intros [= <-]. simpl. split; [|split; [|reflexivity]].
    + unfold tracker_ok. simpl.
      rewrite length_app, length_insert, length_replicate. lia.
    + unfold recorded at 1. simpl. apply Hst.
  - apply Z.eqb_neq in Hfull.
    intros [= <-]. simpl. split; [|split; [|reflexivity]].
    + unfold tracker_ok. simpl. rewrite length_insert. lia.
    + unfold recorded at 1. simpl.
      specialize (Hst []). rewrite app_nil_r in Hst. exact Hst.
Qed.

(** [getFileSize] on a well-formed tracker. *)
Lemma getFileSize_cases (file_stat : stat_t) (w : world) :
  tracker_ok (visited w) ->
  getFileSize env file_stat w =
    if 1 <? st_nlink file_stat then
      if decide (st_ino file_stat ∈ recorded (visited w)) then Done 0 w
      else bind (addInode env (st_ino file_stat))
                (fun _ => ret (to_int (st_blocks file_stat ÷ 2))) w
    else Done (to_int (st_blocks file_stat ÷ 2)) w.
Proof.
  intros Hok. unfold getFileSize.
  destruct (1 <? st_nlink file_stat); [|reflexivity].
  unfold bind at 1, get_visited.
  rewrite isInodeVisited_spec by exact Hok.
  case_decide; reflexivity.
Qed.

End Tracker.

Section Walker.

Context (env : environment).

Lemma scan_entry_classified (recurse : string -> M Z) (path : string)
    (all_files total : Z) (entry_name : string) :
  let curr_path := createPath path entry_name in
  let entry_stat := lstat env curr_path in
  scan_entry env recurse path all_files total entry_name =
    match classify env path entry_name with
    | Parent => ret total
    | Self => ret (to_size_t (total + st_blocks entry_stat ÷ 2))
    | Subdir =>
        r <- recurse curr_path ;;
        printSize curr_path (to_size_t r) ;;;
        ret (to_size_t (total + to_size_t r))
    | Regular =>
        r <- getFileSize env entry_stat ;;
        (if all_files =? TRUE then printSize curr_path (to_size_t r)
         else ret tt) ;;;
        ret (to_size_t (total + to_size_t r))
    | Other => ret total
    end.
Proof.
  intros curr_path entry_stat. unfold scan_entry, classify.
  fold curr_path. fold entry_stat.
  destruct (String.eqb ".." entry_name); [reflexivity|].
  destruct (String.eqb "." entry_name); [reflexivity|].
  destruct (S_ISDIR _); [reflexivity|].
  destruct (S_ISREG _); reflexivity.
Qed.

Lemma scan_entries_app (body : Z -> string -> M Z) (total : Z)
    (xs ys : list string) (w : world) :
  scan_entries body total (xs ++ ys) w =
    (t <- scan_entries body total xs ;; scan_entries body t ys) w.
Proof.
  revert total w. induction xs as [|x xs IH]; intros total w; simpl.
  - reflexivity.
  - unfold bind in *. destruct (body total x w); try reflexivity.
    apply IH.
Qed.

(** *** An invariant rule for completed scans

    A relation between the worlds before and after that is reflexive,
    transitive, and holds across the two steps of the loop body that
    change the world (the report of a subdirectory, and the accounting
    and optional report of a regular file) holds across every
    [getDirectorySize] call that returns. *)
Section Invariant.

Context (all_files : Z) (R : world -> world -> Prop).

Hypothesis R_refl : forall w, R w w.
Hypothesis R_trans : forall w1 w2 w3, R w1 w2 -> R w2 w3 -> R w1 w3.
Hypothesis R_subdir : forall path entries name r w,
  opendir env path = Some entries -> name ∈ entries ->
  classify env path name = Subdir ->
  R w (reported w (to_size_t r) (createPath path name)).
Hypothesis R_regular : forall path entries name r w w1,
  opendir env path = Some entries -> name ∈ entries ->
  classify env path name = Regular ->
  getFileSize env (lstat env (createPath path name)) w = Done r w1 ->
  R w (if all_files =? TRUE
       then reported w1 (to_size_t r) (createPath path name) else w1).

Lemma walk_invariant (fuel : nat) (path : string) (w w' : world) (t : Z) :
  getDirectorySize env fuel path all_files w = Done t w' -> R w w'.
Proof.
  revert path w w' t. induction fuel as [|fuel IH]; intros path w w' t; simpl.
  - discriminate.
  - destruct (opendir env path) as [entries|] eqn:Hdir; [|discriminate].
    intros H. apply bind_Done in H as (total & w1 & H & [= _ <-]).
    clear t. revert H.
    assert (Hsub : forall n, n ∈ entries -> n ∈ entries) by auto.
    revert Hsub. generalize 0. generalize entries at 1 3 as es.
    intros es. revert w.
    induction es as [|name es IHes]; intros w t0 Hsub; simpl.
    + intros [= _ <-]. apply R_refl.
    + intros H. apply bind_Done in H as (t1 & w2 & Hstep & Hrest).
      apply R_trans with w2.
      2:{ eapply IHes; [|exact Hrest]. intros n Hn. apply Hsub. now right. }
      assert (Hin : name ∈ entries) by (apply Hsub; now left).
      rewrite scan_entry_classified in Hstep.
      destruct (classify env path name) eqn:Hk.
      * injection Hstep as _ <-. apply R_refl.
      * injection Hstep as _ <-. apply R_refl.
      * apply bind_Done in Hstep as (r & w3 & Hrec & Hstep).
        injection Hstep as _ <-.
        apply R_trans with w3; [eapply IH; exact Hrec|].
        eapply R_subdir; eassumption.
      * apply bind_Done in Hstep as (r & w3 & Hfile & Hstep).
        apply bind_Done in Hstep as (u & w4 & Hprint & [= _ <-]).
        pose proof (R_regular _ _ _ _ _ _ Hdir Hin Hk Hfile) as HR.
        destruct (all_files =? TRUE).
        -- injection Hprint as _ <-. exact HR.
        -- injection Hprint as _ <-. exact HR.
      * injection Hstep as _ <-. apply R_refl.
Qed.

End Invariant.

End Walker.

(** ** File kinds *)

Lemma mode_kinds_exclusive (m : Z) :
  (S_ISDIR m = true -> S_ISREG m = false /\ S_ISLNK m = false) /\
  (S_ISREG m = true -> S_ISDIR m = false /\ S_ISLNK m = false) /\
  (S_ISLNK m = true -> S_ISDIR m = false /\ S_ISREG m = false).
Proof.
  unfold S_ISDIR, S_ISREG, S_ISLNK, S_IFDIR, S_IFREG, S_IFLNK.
  split; [|split]; intros H; apply Z.eqb_eq in H; rewrite H;
    split; reflexivity.
Qed.

Lemma classify_Other (env : environment) (path name : string) :
  let m := st_mode (lstat env (createPath path name)) in
  name <> ".." -> name <> "." -> S_ISDIR m = false -> S_ISREG m = false ->
  classify env path name = Other.
Proof.
  intros m H1 H2 Hd Hr. unfold classify. fold m.
  destruct (String.eqb_spec ".." name) as [E|_]; [congruence|].
  destruct (String.eqb_spec "." name) as [E|_]; [congruence|].
  rewrite Hd, Hr. reflexivity.
Qed.

Lemma classify_Parent (env : environment) (path : string) :
  classify env path ".." = Parent.
Proof. reflexivity. Qed.

Lemma classify_Self (env : environment) (path : string) :
  classify env path "." = Self.
Proof. reflexivity. Qed.

Lemma classify_names (env : environment) (path name : string) :
  (classify env path name = Parent <-> name = "..") /\
  (classify env path name = Self <-> name = ".").
Proof.
  unfold classify.
  destruct (String.eqb_spec ".." name) as [E|N1].
  - subst. split; split; intros; try reflexivity; discriminate.
  - destruct (String.eqb_spec "." name) as [E|N2].
    + subst. split; split; intros; try reflexivity; discriminate.
    + split; split; intros H; try congruence; exfalso; revert H;
        destruct (S_ISDIR _); try discriminate;
        destruct (S_ISREG _); discriminate.
Qed.

Lemma classify_Subdir (env : environment) (path name : string) :
  classify env path name = Subdir ->
  name <> ".." /\ name <> "." /\
  S_ISDIR (st_mode (lstat env (createPath path name))) = true.
Proof.
  unfold classify.
  destruct (String.eqb_spec ".." name) as [E|N1]; [discriminate|].
  destruct (String.eqb_spec "." name) as [E|N2]; [discriminate|].
  destruct (S_ISDIR _); [auto|].
  destruct (S_ISREG _); discriminate.
Qed.

Lemma classify_Regular (env : environment) (path name : string) :
  classify env path name = Regular ->
  name <> ".." /\ name <> "." /\
  S_ISDIR (st_mode (lstat env (createPath path name))) = false /\
  S_ISREG (st_mode (lstat env (createPath path name))) = true.
Proof.
  unfold classify.
  destruct (String.eqb_spec ".." name) as [E|N1]; [discriminate|].
  destruct (String.eqb_spec "." name) as [E|N2]; [discriminate|].
  destruct (S_ISDIR _); [discriminate|].
  destruct (S_ISREG _); [auto|discriminate].
Qed.

Lemma classify_Regular_intro (env : environment) (path name : string) :
  name <> ".." -> name <> "." ->
  S_ISREG (st_mode (lstat env (createPath path name))) = true ->
  classify env path name = Regular.
Proof.
  intros N1 N2 Hr. unfold classify.
  destruct (String.eqb_spec ".." name) as [E|_]; [congruence|].
  destruct (String.eqb_spec "." name) as [E|_]; [congruence|].
  destruct (mode_kinds_exclusive (st_mode (lstat env (createPath path name))))
    as (_ & H & _).
  destruct (H Hr) as [-> _]. rewrite Hr. reflexivity.
Qed.

Section WalkerFacts.

Context (env : environment).

Lemma addInode_stdout (inode : Z) (w w' : world) (u : unit) :
  addInode env inode w = Done u w' -> stdout w' = stdout w.
Proof.
  unfold addInode, bind, get_visited.
  case_decide; [|discriminate].
  destruct (_ =? _).
  - destruct (_ <? _); [discriminate|].
    destruct (realloc_ok _ _); [|discriminate].
    intros [= _ <-]. reflexivity.
  - intros [= _ <-]. reflexivity.
Qed.

Lemma getFileSize_stdout (file_stat : stat_t) (w w' : world) (r : Z) :
  getFileSize env file_stat w = Done r w' -> stdout w' = stdout w.
Proof.
  unfold getFileSize.
  destruct (1 <? st_nlink file_stat).
  - unfold bind at 1, get_visited.
    destruct (negb _).
    + intros [= _ <-]. reflexivity.
    + intros H. apply bind_Done in H as (u & w1 & H & [= _ <-]).
      eapply addInode_stdout, H.
  - intros [= _ <-]. reflexivity.
Qed.

(** A completed [getFileSize] call: either nothing is recorded, or the
    inode is new, is appended, and the file's size is returned. *)
Lemma getFileSize_Done (file_stat : stat_t) (w w' : world) (r : Z) :
  tracker_ok (visited w) ->
  getFileSize env file_stat w = Done r w' ->
  tracker_ok (visited w') /\ stdout w' = stdout w /\
  ((w' = w /\
    ((st_nlink file_stat <= 1 /\ r = to_int (allocation file_stat)) \/
     (1 < st_nlink file_stat /\ st_ino file_stat ∈ recorded (visited w) /\
      r = 0))) \/
   (1 < st_nlink file_stat /\ (st_ino file_stat ∉ recorded (visited w)) /\
    recorded (visited w') = recorded (visited w) ++ [st_ino file_stat] /\
    r = to_int (allocation file_stat))).
Proof.
  intros Hok H. pose proof (getFileSize_stdout _ _ _ _ H) as Hout.
  rewrite getFileSize_cases in H by exact Hok.
  destruct (Z.ltb_spec 1 (st_nlink file_stat)) as [Hl|Hl].
  - case_decide as Hin.
    + injection H as <- <-. auto 10.
    + apply bind_Done in H as (u & w1 & H & [= <- <-]).
      apply addInode_Done in H as (Hok' & Hrec & _); [|exact Hok].
      auto 10.
  - injection H as <- <-. auto 10.
Qed.

(** Every line a completed scan prints is a report of one of its
    subdirectory entries or (with all files reported) regular-file
    entries, at any depth. *)
Lemma walk_reports (fuel : nat) (path : string) (all_files : Z)
    (w w' : world) (t : Z) :
  getDirectorySize env fuel path all_files w = Done t w' ->
  exists out, stdout w' = stdout w ++ out /\
              Forall (report_of env all_files) out.
Proof.
  apply walk_invariant
    with (R := fun w w' => exists out, stdout w' = stdout w ++ out /\
                                       Forall (report_of env all_files) out).
  - intros w0. exists []. split; [now rewrite app_nil_r | constructor].
  - intros w1 w2 w3 (o1 & E1 & F1) (o2 & E2 & F2). exists (o1 ++ o2).
    split; [rewrite E2, E1; now rewrite app_assoc | now apply Forall_app].
  - intros p entries name r w0 Hdir Hin Hk. eexists. split; [reflexivity|].
    repeat constructor. exists (to_size_t r), p, entries, name. auto.
  - intros p entries name r w0 w1 Hdir Hin Hk Hfile.
    apply getFileSize_stdout in Hfile.
    destruct (Z.eqb_spec all_files TRUE) as [Haf|Haf].
    + eexists. simpl. rewrite Hfile. split; [reflexivity|].
      repeat constructor. exists (to_size_t r), p, entries, name. auto 10.
    + exists []. rewrite Hfile. split; [now rewrite app_nil_r | constructor].
Qed.

(** The tracker across a completed scan: it stays well formed, what was
    recorded stays recorded (in place), and no inode is recorded twice. *)
Lemma walk_tracker (fuel : nat) (path : string) (all_files : Z)
    (w w' : world) (t : Z) :
  getDirectorySize env fuel path all_files w = Done t w' ->
  tracker_ok (visited w) ->
  tracker_ok (visited w') /\
  (exists new, recorded (visited w') = recorded (visited w) ++ new) /\
  (NoDup (recorded (visited w)) -> NoDup (recorded (visited w'))).
Proof.
  intros H.
  apply (walk_invariant env all_files
           (fun w w' =>
              tracker_ok (visited w) ->
              tracker_ok (visited w') /\
              (exists new, recorded (visited w') = recorded (visited w) ++ new) /\
              (NoDup (recorded (visited w)) -> NoDup (recorded (visited w')))))
    with (fuel := fuel) (path := path) (t := t); [| | | |exact H]; clear.
  - intros w0 Hok. split; [exact Hok|]. split; [|auto].
    exists []. now rewrite app_nil_r.
  - intros w1 w2 w3 H12 H23 Hok1.
    destruct (H12 Hok1) as (Hok2 & (n1 & E1) & N1).
    destruct (H23 Hok2) as (Hok3 & (n2 & E2) & N2).
    split; [exact Hok3|]. split; [|auto].
    exists (n1 ++ n2). rewrite E2, E1. now rewrite app_assoc.
  - intros p entries name r w0 _ _ _ Hok. simpl.
    split; [exact Hok|]. split; [|auto]. exists []. now rewrite app_nil_r.
  - intros p entries name r w0 w1 _ _ _ Hfile Hok.
    apply getFileSize_Done in Hfile as (Hok1 & _ & Hcase); [|exact Hok].
    assert (tracker_ok (visited w1) /\
            (exists new, recorded (visited w1) = recorded (visited w0) ++ new) /\
            (NoDup (recorded (visited w0)) -> NoDup (recorded (visited w1))))
      as Hgoal.
    { split; [exact Hok1|].
      destruct Hcase as [[-> _] | (_ & Hnew & Hrec & _)].
      - split; [|auto]. exists []. now rewrite app_nil_r.
      - split; [eauto|]. intros Hnd. rewrite Hrec.
        apply NoDup_app. split; [exact Hnd|]. split.
        + intros x Hx Hx'. apply list_elem_of_singleton in Hx'. now subst.
        + apply NoDup_singleton. }
    destruct (all_files =? TRUE); exact Hgoal.
Qed.

End WalkerFacts.

(** ** The flag does not influence the computation *)

Lemma silent_Done {A} (a b : A) (w1 w2 : world) :
  silent (Done a w1) = silent (Done b w2) <-> a = b /\ visited w1 = visited w2.
Proof.
  unfold silent, with_visited. simpl. split.
  - intros [= -> ->]. auto.
  - intros [-> ->]. reflexivity.
Qed.

Lemma silent_bind {A B} (m1 m2 : M A) (k1 k2 : A -> M B) (w1 w2 : world) :
  silent (m1 w1) = silent (m2 w2) ->
  (forall a w1' w2', visited w1' = visited w2' ->
                     silent (k1 a w1') = silent (k2 a w2')) ->
  silent (bind m1 k1 w1) = silent (bind m2 k2 w2).
Proof.
  intros Hm Hk. unfold bind.
  destruct (m1 w1) as [a1 w1'|s1 w1'| |], (m2 w2) as [a2 w2'|s2 w2'| |];
    try (simpl in Hm; discriminate Hm); try reflexivity.
  - apply silent_Done in Hm as [-> Hv]. apply Hk, Hv.
  - unfold silent, with_visited in *. simpl in *.
    injection Hm as -> ->. reflexivity.
Qed.

Section FlagIndependence.

Context (env : environment).

Lemma addInode_silent (inode : Z) (w1 w2 : world) :
  visited w1 = visited w2 ->
  silent (addInode env inode w1) = silent (addInode env inode w2).
Proof.
  intros Hv. unfold addInode, bind, get_visited. rewrite Hv.
  case_decide; [|reflexivity].
  destruct (_ =? _); [|reflexivity].
  destruct (_ <? _); [reflexivity|].
  destruct (realloc_ok _ _); reflexivity.
Qed.

Lemma getFileSize_silent (file_stat : stat_t) (w1 w2 : world) :
  visited w1 = visited w2 ->
  silent (getFileSize env file_stat w1) = silent (getFileSize env file_stat w2).
Proof.
  intros Hv. unfold getFileSize.
  destruct (1 <? st_nlink file_stat).
  - unfold bind at 1 3, get_visited. rewrite Hv.
    destruct (negb _).
    + apply silent_Done. auto.
    + apply silent_bind; [apply addInode_silent, Hv|].
      intros _ w1' w2' Hv'. apply silent_Done. auto.
  - apply silent_Done. auto.
Qed.

Lemma print_option_silent (b1 b2 : bool) (p : string) (s : Z) (w1 w2 : world) :
  visited w1 = visited w2 ->
  silent ((if b1 then printSize p s else ret tt) w1) =
  silent ((if b2 then printSize p s else ret tt) w2).
Proof.
  intros Hv. destruct b1, b2; apply silent_Done; auto.
Qed.

Lemma walk_flag_silent (fuel : nat) (path : string) (flag1 flag2 : Z)
    (w1 w2 : world) :
  visited w1 = visited w2 ->
  silent (getDirectorySize env fuel path flag1 w1) =
  silent (getDirectorySize env fuel path flag2 w2).
Proof.
  revert path w1 w2. induction fuel as [|fuel IH]; intros path w1 w2 Hv; simpl.
  - reflexivity.
  - destruct (opendir env path) as [entries|]; [|reflexivity].
    apply silent_bind; [|intros a ? ? Hv'; apply silent_Done; auto].
    generalize 0. revert w1 w2 Hv.
    induction entries as [|name es IHes]; intros w1 w2 Hv total; simpl.
    + apply silent_Done. auto.
    + apply silent_bind; [|intros a ? ? Hv'; apply IHes, Hv'].
      rewrite !scan_entry_classified.
      destruct (classify env path name).
      * apply silent_Done. auto.
      * apply silent_Done. auto.
      * apply silent_bind; [apply IH, Hv|].
        intros r ? ? Hv'. apply silent_bind; [apply silent_Done; auto|].
        intros _ ? ? Hv''. apply silent_Done. auto.
      * apply silent_bind; [apply getFileSize_silent, Hv|].
        intros r ? ? Hv'.
        apply silent_bind; [apply print_option_silent, Hv'|].
        intros _ ? ? Hv''. apply silent_Done. auto.
      * apply silent_Done. auto.
Qed.

End FlagIndependence.

(** ** Termination *)

Section Termination.

Context (env : environment).

Lemma addInode_not_Timeout (inode : Z) (w : world) :
  addInode env inode w <> Timeout.
Proof.
  unfold addInode, bind, get_visited.
  case_decide; [|discriminate].
  destruct (_ =? _); [|discriminate].
  destruct (_ <? _); [discriminate|].
  destruct (realloc_ok _ _); discriminate.
Qed.

Lemma getFileSize_not_Timeout (file_stat : stat_t) (w : world) :
  getFileSize env file_stat w <> Timeout.
Proof.
  unfold getFileSize.
  destruct (1 <? st_nlink file_stat); [|discriminate].
  unfold bind at 1, get_visited.
  destruct (negb _); [discriminate|].
  intros H. apply bind_Timeout in H as [H | (u & w1 & _ & H)].
  - exact (addInode_not_Timeout _ _ H).
  - discriminate.
Qed.

Lemma terminates_within_mono (n m : nat) (path : string) :
  (n <= m)%nat -> terminates_within env n path -> terminates_within env m path.
Proof. intros Hnm H fuel af w Hle. apply H. lia. Qed.

(** One budget that suffices for every subdirectory entry of a listing. *)
Lemma subdirs_common_budget (path : string) (entries : list string) :
  (forall name, name ∈ entries -> classify env path name = Subdir ->
                exists n, terminates_within env n (createPath path name)) ->
  exists n, forall name, name ∈ entries -> classify env path name = Subdir ->
                         terminates_within env n (createPath path name).
Proof.
  induction entries as [|e es IH]; intros H.
  - exists O. intros name Hin. inversion Hin.
  - destruct IH as [n Hn].
    { intros name Hin. apply H. now right. }
    destruct (classify env path e) eqn:Hk;
      try (exists n; intros name Hin Hsub;
           apply elem_of_cons in Hin as [->|Hin]; [congruence | now apply Hn]).
    destruct (H e) as [m Hm]; [now left | exact Hk |].
    exists (max n m). intros name Hin Hsub.
    apply elem_of_cons in Hin as [->|Hin].
    + eapply terminates_within_mono; [|exact Hm]. lia.
    + eapply terminates_within_mono; [|apply Hn; assumption]. lia.
Qed.

Lemma scan_entries_not_Timeout (recurse : string -> M Z) (path : string)
    (all_files : Z) (entries : list string) (total : Z) (w : world) :
  (forall name w0, name ∈ entries -> classify env path name = Subdir ->
                   recurse (createPath path name) w0 <> Timeout) ->
  scan_entries (scan_entry env recurse path all_files) total entries w
  <> Timeout.
Proof.
  revert total w. induction entries as [|name es IH]; intros total w Hrec; simpl.
  - discriminate.
  - intros H. apply bind_Timeout in H as [H | (t1 & w1 & _ & H)].
    + rewrite scan_entry_classified in H.
      destruct (classify env path name) eqn:Hk; try discriminate.
      * apply bind_Timeout in H as [H | (r & w1 & _ & H)];
          [|cbv [bind printSize printf ret] in H; discriminate].
        revert H. apply Hrec; [now left | exact Hk].
      * apply bind_Timeout in H as [H | (r & w1 & _ & H)].
        -- exact (getFileSize_not_Timeout _ _ H).
        -- destruct (all_files =? TRUE);
             cbv [bind printSize printf ret] in H; discriminate.
    + revert H. apply IH. intros n w0 Hin. apply Hrec. now right.
Qed.

Lemma finite_tree_terminates (path : string) :
  finite_tree env path -> exists n, terminates_within env n path.
Proof.
  induction 1 as [path _ IH].
  destruct (opendir env path) as [entries|] eqn:Hdir.
  - destruct (subdirs_common_budget path entries) as [n Hn].
    { intros name Hin Hk. apply (IH entries name); auto. }
    exists (S n). intros fuel af w Hle.
    destruct fuel as [|fuel]; [lia|]. simpl. rewrite Hdir.
    intros H. apply bind_Timeout in H as [H | (t & w1 & _ & H)]; [|discriminate].
    revert H. apply scan_entries_not_Timeout.
    intros name w0 Hin Hk. apply (Hn name Hin Hk). lia.
  - exists 1%nat. intros fuel af w Hle.
    destruct fuel as [|fuel]; [lia|]. simpl. rewrite Hdir. discriminate.
Qed.

(** A larger budget does not change an outcome other than [Timeout]. *)
Lemma bind_stable {A B} (m1 m2 : M A) (k1 k2 : A -> M B) (w : world) :
  bind m1 k1 w <> Timeout ->
  (m1 w <> Timeout -> m2 w = m1 w) ->
  (forall a w1, m1 w = Done a w1 -> k1 a w1 <> Timeout ->
                k2 a w1 = k1 a w1) ->
  bind m2 k2 w = bind m1 k1 w.
Proof.
  unfold bind. intros H Hm Hk.
  destruct (m1 w) as [a w1| | |] eqn:E; [| | |contradiction];
    rewrite Hm by discriminate; [|reflexivity..].
  apply Hk; [reflexivity | exact H].
Qed.

Lemma scan_entries_stable (rec1 rec2 : string -> M Z) (path : string)
    (all_files : Z) (entries : list string) (total : Z) (w : world) :
  (forall p w0, rec1 p w0 <> Timeout -> rec2 p w0 = rec1 p w0) ->
  scan_entries (scan_entry env rec1 path all_files) total entries w
    <> Timeout ->
  scan_entries (scan_entry env rec2 path all_files) total entries w =
  scan_entries (scan_entry env rec1 path all_files) total entries w.
Proof.
  intros Hrec. revert total w.
  induction entries as [|name es IH]; intros total w H; simpl.
  - reflexivity.
  - simpl in H. apply bind_stable; [exact H | | intros; now apply IH].
    rewrite !scan_entry_classified.
    destruct (classify env path name); try reflexivity.
    intros H1. apply bind_stable; [exact H1 | apply Hrec | reflexivity].
Qed.

Lemma getDirectorySize_stable (fuel fuel' : nat) (path : string)
    (all_files : Z) (w : world) :
  (fuel <= fuel')%nat ->
  getDirectorySize env fuel path all_files w <> Timeout ->
  getDirectorySize env fuel' path all_files w =
  getDirectorySize env fuel path all_files w.
Proof.
  revert fuel' path w. induction fuel as [|fuel IH]; intros fuel' path w Hle H.
  - simpl in H. contradiction.
  - destruct fuel' as [|fuel']; [lia|]. simpl in *.
    destruct (opendir env path) as [entries|]; [|reflexivity].
    apply bind_stable; [exact H | | reflexivity].
    apply scan_entries_stable. intros p w0. apply IH. lia.
Qed.

End Termination.

(** ** The total of one directory *)

Lemma to_int_eq_iff (a b : Z) :
  to_int a = to_int b <-> a mod 2 ^ 32 = b mod 2 ^ 32.
Proof.
  unfold to_int. split; intros H.
  - assert (E : (a + 2 ^ 31) mod 2 ^ 32 = (b + 2 ^ 31) mod 2 ^ 32) by lia.
    rewrite <- (Z.add_simpl_r a (2 ^ 31)), <- (Z.add_simpl_r b (2 ^ 31)).
    rewrite <- (Zminus_mod_idemp_l (a + _)), <- (Zminus_mod_idemp_l (b + _)).
    rewrite E. reflexivity.
  - rewrite <- (Zplus_mod_idemp_l a), <- (Zplus_mod_idemp_l b), H.
    reflexivity.
Qed.

Lemma to_int_add_congr (a a' b b' : Z) :
  to_int a = to_int a' -> to_int b = to_int b' ->
  to_int (a + b) = to_int (a' + b').
Proof.
  rewrite !to_int_eq_iff. intros Ha Hb.
  rewrite (Zplus_mod a), (Zplus_mod a'), Ha, Hb. reflexivity.
Qed.

Lemma to_int_idemp (a : Z) : to_int (to_int a) = to_int a.
Proof.
  apply to_int_eq_iff. unfold to_int.
  rewrite Zminus_mod_idemp_l.
  replace (a + 2 ^ 31 - 2 ^ 31) with a by lia. reflexivity.
Qed.

Section DirectoryTotal.

Context (env : environment).

Lemma getFileSize_exact (file_stat : stat_t) (w w' : world) (r : Z) :
  getFileSize env file_stat w = Done r w' ->
  to_int r =
    to_int (if (1 <? st_nlink file_stat) &&
               negb (isInodeVisited (visited w) (st_ino file_stat) =? 0)
            then 0 else allocation file_stat).
Proof.
  unfold getFileSize, allocation.
  destruct (1 <? st_nlink file_stat); simpl.
  - unfold bind at 1, get_visited.
    destruct (negb _).
    + intros [= <- _]. reflexivity.
    + intros H. apply bind_Done in H as (u & w1 & _ & [= <- _]).
      apply to_int_idemp.
  - intros [= <- _]. apply to_int_idemp.
Qed.

(** The loop with its running [size_t] total computes, up to the final
    conversion to [int], the exact sum of the contributions. *)
Lemma scan_entries_contributions (recurse : string -> M Z) (path : string)
    (all_files : Z) (entries : list string) (total total' : Z) (w : world) :
  to_int total = to_int total' ->
  (t <- scan_entries (scan_entry env recurse path all_files) total entries ;;
   ret (to_int t)) w =
  (cs <- contributions env recurse path all_files entries ;;
   ret (to_int (total' + directory_sum cs))) w.
Proof.
  revert total total' w.
  induction entries as [|name es IH]; intros total total' w Heq.
  - cbn. unfold directory_sum. simpl. rewrite Z.add_0_r, Heq. reflexivity.
  - assert (Hnext : forall k c t1 w1,
               to_int t1 = to_int (total' + (if kind_eqb k Other || kind_eqb k Parent
                                             then 0 else c)) ->
               (t <- scan_entries (scan_entry env recurse path all_files) t1 es ;;
                ret (to_int t)) w1 =
               (cs <- (cs <- contributions env recurse path all_files es ;;
                       ret ((k, c) :: cs)) ;;
                ret (to_int (total' + directory_sum cs))) w1).
    { intros k c t1 w1 Ht. rewrite (IH _ _ _ Ht). unfold bind, ret.
      destruct (contributions _ _ _ _ es w1); try reflexivity.
      do 2 f_equal. unfold directory_sum. destruct k; simpl; lia. }
    simpl scan_entries. simpl contributions.
    rewrite scan_entry_classified. unfold contribution.
    destruct (classify env path name).
    + apply (Hnext Parent 0). simpl. rewrite Z.add_0_r. exact Heq.
    + apply (Hnext Self). simpl. rewrite to_int_to_size_t.
      apply to_int_add_congr; [exact Heq | reflexivity].
    + cbv [bind].
      destruct (recurse (createPath path name) w) as [r w1| | |];
        try reflexivity.
      apply (Hnext Subdir r (to_size_t (total + to_size_t r))
               (reported w1 (to_size_t r) (createPath path name))).
      simpl. rewrite to_int_to_size_t.
      apply to_int_add_congr; [exact Heq | apply to_int_to_size_t].
    + cbv [bind get_visited].
      destruct (getFileSize env _ w) as [r w1| | |] eqn:Hfile;
        try reflexivity.
      apply getFileSize_exact in Hfile.
      set (c := if (1 <? st_nlink (lstat env (createPath path name))) &&
                   negb (isInodeVisited (visited w)
                           (st_ino (lstat env (createPath path name))) =? 0)
                then 0 else allocation (lstat env (createPath path name))) in *.
      assert (Ht : to_int (to_size_t (total + to_size_t r)) =
                   to_int (total' + c)).
      { rewrite to_int_to_size_t.
        apply to_int_add_congr; [exact Heq|].
        rewrite to_int_to_size_t. exact Hfile. }
      destruct (all_files =? TRUE).
      * apply (Hnext Regular c (to_size_t (total + to_size_t r))
                 (reported w1 (to_size_t r) (createPath path name)) Ht).
      * apply (Hnext Regular c (to_size_t (total + to_size_t r)) w1 Ht).
    + apply (Hnext Other 0). simpl. rewrite Z.add_0_r. exact Heq.
Qed.

End DirectoryTotal.

Section DirectoryTotalFacts.

Context (env : environment).

Lemma getDirectorySize_contributions (fuel : nat) (path : string)
    (all_files : Z) (entries : list string) (w : world) :
  opendir env path = Some entries ->
  getDirectorySize env (S fuel) path all_files w =
    (cs <- contributions env
             (fun p => getDirectorySize env fuel p all_files)
             path all_files entries ;;
     ret (to_int (directory_sum cs))) w.
Proof.
  intros Hdir. simpl. rewrite Hdir.
  apply (scan_entries_contributions env _ path all_files entries 0 0 w).
  reflexivity.
Qed.

Lemma contribution_kind (recurse : string -> M Z) (path : string)
    (all_files : Z) (name : string) (w w' : world) (c : entry_kind * Z) :
  contribution env recurse path all_files name w = Done c w' ->
  fst c = classify env path name /\
  (fst c = Self -> snd c = allocation (lstat env (createPath path ".")) /\ w' = w) /\
  (fst c = Parent -> snd c = 0 /\ w' = w).
Proof.
  unfold contribution.
  destruct (classify env path name) eqn:Hk.
  - intros [= <- <-]. simpl. repeat split; auto; discriminate.
  - apply classify_names in Hk as ->.
    intros [= <- <-]. simpl. repeat split; auto; discriminate.
  - intros H. apply bind_Done in H as (r & w1 & _ & H).
    apply bind_Done in H as (u & w2 & _ & [= <- _]).
    simpl. repeat split; auto; discriminate.
  - intros H. apply bind_Done in H as (v & w1 & _ & H).
    apply bind_Done in H as (r & w2 & _ & H).
    apply bind_Done in H as (u & w3 & _ & [= <- _]).
    simpl. repeat split; auto; discriminate.
  - intros [= <- <-]. simpl. repeat split; auto; discriminate.
Qed.

Lemma contributions_Self (recurse : string -> M Z) (path : string)
    (all_files : Z) (entries : list string) (w w' : world)
    (cs : list (entry_kind * Z)) :
  contributions env recurse path all_files entries w = Done cs w' ->
  sum_of Self cs =
    Z.of_nat (self_entries entries) * allocation (lstat env (createPath path ".")).
Proof.
  revert w w' cs. induction entries as [|name es IH]; intros w w' cs; simpl.
  - intros [= <- _]. reflexivity.
  - intros H. apply bind_Done in H as (c & w1 & Hc & H).
    apply bind_Done in H as (cs' & w2 & Hcs & [= <- _]).
    apply IH in Hcs. apply contribution_kind in Hc as (Hk & Hself & _).
    simpl. rewrite Hcs. unfold self_entries. rewrite filter_cons.
    destruct (decide (name = ".")) as [->|Hne].
    + rewrite classify_Self in Hk. rewrite Hk. simpl kind_eqb. cbv iota.
      destruct (Hself Hk) as [-> _]. simpl length. lia.
    + assert (Hns : kind_eqb (fst c) Self = false).
      { rewrite Hk. destruct (classify env path name) eqn:E; try reflexivity.
        apply classify_names in E. contradiction. }
      rewrite Hns. lia.
Qed.

(** A listing of "." and ".." entries only: nothing is printed, nothing
    recorded, no recursive call is made. *)
Lemma contributions_dots (recurse : string -> M Z) (path : string)
    (all_files : Z) (entries : list string) (w : world) :
  (forall name, name ∈ entries -> name = "." \/ name = "..") ->
  exists cs, contributions env recurse path all_files entries w = Done cs w /\
             sum_of Regular cs = 0 /\ sum_of Subdir cs = 0.
Proof.
  induction entries as [|name es IH]; intros Hdots; simpl.
  - exists []. auto.
  - destruct IH as (cs & Hcs & Hr & Hs).
    { intros n Hn. apply Hdots. now right. }
    unfold bind. unfold contribution at 1.
    destruct (Hdots name) as [->| ->]; [now left | |].
    + rewrite classify_Self. cbn. rewrite Hcs. eexists. split; [reflexivity|].
      simpl. rewrite Hr, Hs. auto.
    + rewrite classify_Parent. cbn. rewrite Hcs. eexists. split; [reflexivity|].
      simpl. rewrite Hr, Hs. auto.
Qed.

End DirectoryTotalFacts.

Section Reports.

Context (env : environment).

Lemma report_of_entry (all_files : Z) (l : line) :
  report_of env all_files l ->
  exists size path entries name,
    l = Report size (createPath path name) /\
    opendir env path = Some entries /\ name ∈ entries /\
    name <> "." /\ name <> "..".
Proof.
  intros (size & p & entries & name & -> & Hdir & Hin & Hk).
  exists size, p, entries, name.
  destruct Hk as [Hk | [Hk _]];
    [apply classify_Subdir in Hk | apply classify_Regular in Hk];
    intuition.
Qed.

Lemma report_of_directory (all_files : Z) (l : line) :
  all_files <> TRUE -> report_of env all_files l ->
  exists size path,
    l = Report size path /\ S_ISDIR (st_mode (lstat env path)) = true.
Proof.
  intros Haf (size & p & entries & name & -> & Hdir & Hin & Hk).
  destruct Hk as [Hk | [_ Hk]]; [|contradiction].
  apply classify_Subdir in Hk as (_ & _ & Hk). eauto.
Qed.

Lemma report_of_mode (all_files : Z) (l : line) :
  report_of env all_files l ->
  exists size path,
    l = Report size path /\
    (S_ISDIR (st_mode (lstat env path)) = true \/
     S_ISREG (st_mode (lstat env path)) = true).
Proof.
  intros (size & p & entries & name & -> & Hdir & Hin & Hk).
  exists size, (createPath p name). split; [reflexivity|].
  destruct Hk as [Hk | [Hk _]];
    [apply classify_Subdir in Hk | apply classify_Regular in Hk];
    intuition.
Qed.

(** What the loop body does for a regular-file entry. *)
Lemma scan_entry_Regular (recurse : string -> M Z) (path : string)
    (all_files total : Z) (name : string) (w w' : world) (t : Z) :
  classify env path name = Regular ->
  scan_entry env recurse path all_files total name w = Done t w' ->
  exists r w1,
    getFileSize env (lstat env (createPath path name)) w = Done r w1 /\
    t = to_size_t (total + to_size_t r) /\
    w' = if all_files =? TRUE
         then reported w1 (to_size_t r) (createPath path name) else w1.
Proof.
  intros Hk. rewrite scan_entry_classified, Hk. intros H.
  apply bind_Done in H as (r & w1 & Hfile & H).
  apply bind_Done in H as (u & w2 & Hprint & [= <- <-]).
  exists r, w1. split; [exact Hfile|]. split; [reflexivity|].
  destruct (all_files =? TRUE); injection Hprint as _ <-; reflexivity.
Qed.

Lemma scan_entry_stdout (fuel : nat) (path : string) (all_files total : Z)
    (name : string) (w w' : world) (t : Z) :
  scan_entry env (fun p => getDirectorySize env fuel p all_files)
    path all_files total name w = Done t w' ->
  exists out, stdout w' = stdout w ++ out.
Proof.
  destruct (classify env path name) eqn:Hk.
  1,2,5: rewrite scan_entry_classified, Hk; intros [= _ <-];
    exists []; now rewrite app_nil_r.
  - rewrite scan_entry_classified, Hk. intros H.
    apply bind_Done in H as (r & w1 & Hrec & [= _ <-]).
    apply walk_reports in Hrec as (out & E & _).
    eexists. simpl. rewrite E, <- app_assoc. reflexivity.
  - intros H. apply scan_entry_Regular in H as (r & w1 & Hfile & _ & ->);
      [|exact Hk].
    apply getFileSize_stdout in Hfile.
    destruct (all_files =? TRUE); simpl; rewrite Hfile.
    + eexists. reflexivity.
    + exists []. now rewrite app_nil_r.
Qed.

Lemma scan_entries_stdout (fuel : nat) (path : string) (all_files : Z)
    (entries : list string) (total : Z) (w w' : world) (t : Z) :
  scan_entries (scan_entry env (fun p => getDirectorySize env fuel p all_files)
                  path all_files) total entries w = Done t w' ->
  exists out, stdout w' = stdout w ++ out.
Proof.
  revert total w. induction entries as [|name es IH]; intros total w; simpl.
  - intros [= _ <-]. exists []. now rewrite app_nil_r.
  - intros H. apply bind_Done in H as (t1 & w1 & Hstep & Hrest).
    apply scan_entry_stdout in Hstep as (o1 & E1).
    apply IH in Hrest as (o2 & E2).
    exists (o1 ++ o2). rewrite E2, E1, app_assoc. reflexivity.
Qed.

(** With all files reported, every regular-file entry of a scanned
    directory gets its line. *)
Lemma scan_entries_regular_reported (fuel : nat) (path : string)
    (entries : list string) (name : string) (total : Z) (w w' : world)
    (t : Z) :
  name ∈ entries -> classify env path name = Regular ->
  scan_entries (scan_entry env (fun p => getDirectorySize env fuel p TRUE)
                  path TRUE) total entries w = Done t w' ->
  exists out size, stdout w' = stdout w ++ out /\
                   Report size (createPath path name) ∈ out.
Proof.
  intros Hin Hk. revert total w.
  induction entries as [|e es IH]; intros total w; simpl.
  - inversion Hin.
  - intros H. apply bind_Done in H as (t1 & w1 & Hstep & Hrest).
    apply elem_of_cons in Hin as [<-|Hin].
    + apply scan_entry_Regular in Hstep as (r & w2 & Hfile & _ & ->);
        [|exact Hk].
      apply getFileSize_stdout in Hfile.
      apply scan_entries_stdout in Hrest as (o2 & E2).
      simpl in E2. rewrite Hfile in E2.
      exists ([Report (to_size_t r) (createPath path name)] ++ o2), (to_size_t r).
      split; [rewrite E2, <- app_assoc; reflexivity | now left].
    + apply scan_entry_stdout in Hstep as (o1 & E1).
      destruct (IH Hin _ _ Hrest) as (o2 & size & E2 & Hmem).
      exists (o1 ++ o2), size.
      split; [rewrite E2, E1, app_assoc; reflexivity|].
      apply elem_of_app. now right.
Qed.

End Reports.

Lemma sample_generous : generous Sample.env.
Proof. intros size [_ H]. apply Z.leb_le. lia. Qed.

Lemma sample_tree_readable : readable_tree Sample.env "d".
Proof.
  eapply readable_tree_intro; [reflexivity|]. intros name Hin Hk.
  repeat (apply elem_of_cons in Hin as [->|Hin]);
    try (vm_compute in Hk; discriminate Hk); [|inversion Hin].
  eapply readable_tree_intro; [reflexivity|]. intros name Hin Hk'.
  repeat (apply elem_of_cons in Hin as [->|Hin]);
    try (vm_compute in Hk'; discriminate Hk'). inversion Hin.
Qed.

Lemma sample_tree_finite : finite_tree Sample.env "d".
Proof.
  constructor. intros entries name Hdir Hin Hk.
  cbv in Hdir. injection Hdir as <-.
  repeat (apply elem_of_cons in Hin as [->|Hin]);
    try (vm_compute in Hk; discriminate Hk); [|inversion Hin].
  constructor. intros entries name Hdir Hin Hk'.
  cbv in Hdir. injection Hdir as <-.
  repeat (apply elem_of_cons in Hin as [->|Hin]);
    try (vm_compute in Hk'; discriminate Hk'). inversion Hin.
Qed.

(** ** The grand total in closed form *)

Lemma counted_app (seen : list Z) (xs ys : list item) :
  counted seen (xs ++ ys) = counted seen xs + counted (seen_after seen xs) ys.
Proof.
  revert seen. induction xs as [|[s|s] xs IH]; intros seen; simpl.
  - reflexivity.
  - rewrite IH. lia.
  - destruct (1 <? st_nlink s); [case_decide|]; rewrite IH; lia.
Qed.

Lemma seen_after_app (seen : list Z) (xs ys : list item) :
  seen_after seen (xs ++ ys) = seen_after (seen_after seen xs) ys.
Proof.
  revert seen. induction xs as [|[s|s] xs IH]; intros seen; simpl.
  - reflexivity.
  - apply IH.
  - destruct (1 <? st_nlink s); [case_decide|]; apply IH.
Qed.

(** [counted] looks at [seen] only to ask whether the inodes of the
    listed files are in it. *)
Lemma counted_ext (seen1 seen2 : list Z) (items : list item) :
  (forall s, File s ∈ items -> st_ino s ∈ seen1 <-> st_ino s ∈ seen2) ->
  counted seen1 items = counted seen2 items.
Proof.
  revert seen1 seen2. induction items as [|[s|s] rest IH]; intros s1 s2 H; simpl.
  - reflexivity.
  - f_equal. apply IH. intros s' Hs'. apply H. now right.
  - assert (Hrest : forall s', File s' ∈ rest ->
                               st_ino s' ∈ s1 <-> st_ino s' ∈ s2).
    { intros s' Hs'. apply H. now right. }
    assert (Hs : st_ino s ∈ s1 <-> st_ino s ∈ s2) by (apply H; now left).
    destruct (1 <? st_nlink s); [|f_equal; now apply IH].
    destruct (decide (st_ino s ∈ s1)) as [H1|H1],
             (decide (st_ino s ∈ s2)) as [H2|H2]; try tauto.
    + now apply IH.
    + f_equal. apply IH. intros s' Hs'.
      rewrite !elem_of_app, (Hrest s' Hs'). reflexivity.
Qed.

(** Names of an inode that is already in [seen] count for nothing. *)
Lemma counted_without_seen (i : Z) (seen : list Z) (items : list item) :
  i ∈ seen ->
  (forall s, File s ∈ items -> st_ino s = i -> 1 < st_nlink s) ->
  counted seen items = counted seen (without i items).
Proof.
  revert seen. induction items as [|[s|s] rest IH]; intros seen Hi Hl; simpl.
  - reflexivity.
  - f_equal. apply IH; [exact Hi|]. intros s' Hs'. apply Hl. now right.
  - assert (Hrest : forall s', File s' ∈ rest -> st_ino s' = i -> 1 < st_nlink s').
    { intros s' Hs'. apply Hl. now right. }
    destruct (Z.eqb_spec (st_ino s) i) as [E|N]; simpl.
    + assert (Hn : 1 < st_nlink s) by (apply Hl; [now left | exact E]).
      apply Z.ltb_lt in Hn. rewrite Hn, decide_True by (rewrite E; exact Hi).
      now apply IH.
    + destruct (1 <? st_nlink s); [case_decide|].
      * now apply IH.
      * f_equal. apply IH; [|exact Hrest]. apply elem_of_app. now left.
      * f_equal. now apply IH.
Qed.

(** The inode of a file with several names, none of them seen before,
    is counted exactly once: taking all its names out of the entries
    lowers the count by one allocation size. *)
Lemma counted_once (i a : Z) (seen : list Z) (items : list item) :
  i ∉ seen ->
  (forall s, File s ∈ items -> st_ino s = i ->
             1 < st_nlink s /\ allocation s = a) ->
  (exists s, File s ∈ items /\ st_ino s = i) ->
  counted seen items = a + counted seen (without i items).
Proof.
  revert seen. induction items as [|[s|s] rest IH]; intros seen Hi Hl Hex.
  - destruct Hex as (s & Hs & _). inversion Hs.
  - simpl. rewrite IH; [lia | exact Hi | |].
    + intros s' Hs'. apply Hl. now right.
    + destruct Hex as (s' & Hs' & E). exists s'. split; [|exact E].
      apply elem_of_cons in Hs' as [[=]|Hs']. exact Hs'.
  - assert (Hrest : forall s', File s' ∈ rest -> st_ino s' = i ->
                               1 < st_nlink s' /\ allocation s' = a).
    { intros s' Hs'. apply Hl. now right. }
    simpl. destruct (Z.eqb_spec (st_ino s) i) as [E|N]; simpl.
    + destruct (Hl s) as [Hn Ha]; [now left | exact E |].
      apply Z.ltb_lt in Hn. rewrite Hn, decide_False by (rewrite E; exact Hi).
      rewrite Ha. f_equal.
      rewrite (counted_without_seen i) by
        (try (apply elem_of_app; right; rewrite E; now left);
         intros s' Hs' E'; now apply Hrest).
      apply counted_ext. intros s' Hs'.
      rewrite elem_of_app, E, list_elem_of_singleton.
      assert (st_ino s' <> i); [|tauto].
      unfold without in Hs'. apply list_elem_of_In, filter_In in Hs' as [_ Hf].
      simpl in Hf. now destruct (Z.eqb_spec (st_ino s') i).
    + assert (Hex' : exists s', File s' ∈ rest /\ st_ino s' = i).
      { destruct Hex as (s' & Hs' & E). exists s'. split; [|exact E].
        apply elem_of_cons in Hs' as [[= ->]|Hs']; [contradiction | exact Hs']. }
      destruct (1 <? st_nlink s); [case_decide|].
      * now apply IH.
      * rewrite IH; [lia | | exact Hrest | exact Hex'].
        rewrite elem_of_app, list_elem_of_singleton. intros [?|?]; auto.
      * rewrite IH; [lia | exact Hi | exact Hrest | exact Hex'].
Qed.

Section GrandTotal.

Context (env : environment).

(** A completed scan returns, converted to [int], the exact count of the
    entries below it, and records the inodes counted on the way. *)
Lemma walk_exact (fuel : nat) (path : string) (all_files : Z)
    (w w' : world) (t : Z) :
  tracker_ok (visited w) ->
  getDirectorySize env fuel path all_files w = Done t w' ->
  t = to_int (counted (recorded (visited w)) (census env fuel path)) /\
  recorded (visited w') =
    seen_after (recorded (visited w)) (census env fuel path) /\
  tracker_ok (visited w').
Proof.
  revert path w w' t. induction fuel as [|fuel IH]; intros path w w' t Hok;
    simpl.
  - discriminate.
  - destruct (opendir env path) as [entries|]; [|discriminate].
    intros H. apply bind_Done in H as (total & w1 & H & [= <- <-]).
    set (f := fun name =>
                match classify env path name with
                | Self => [Own (lstat env (createPath path name))]
                | Subdir => census env fuel (createPath path name)
                | Regular => [File (lstat env (createPath path name))]
                | Parent | Other => []
                end).
    enough (Hgen : forall es total0 w0 total w1,
               tracker_ok (visited w0) ->
               scan_entries
                 (scan_entry env (fun p => getDirectorySize env fuel p all_files)
                    path all_files) total0 es w0 = Done total w1 ->
               to_int total =
                 to_int (total0 + counted (recorded (visited w0)) (flat_map f es)) /\
               recorded (visited w1) =
                 seen_after (recorded (visited w0)) (flat_map f es) /\
               tracker_ok (visited w1)).
    { destruct (Hgen _ _ _ _ _ Hok H) as (H1 & H2 & H3).
      split; [|split; assumption]. exact H1. }
    clear H Hok total w w1.
    induction es as [|name es IHes]; intros total0 w0 total w1 Hok; simpl.
    + intros [= <- <-]. rewrite Z.add_0_r. auto.
    + intros H. apply bind_Done in H as (t1 & w2 & Hstep & Hrest).
      rewrite counted_app, seen_after_app.
      enough (Hone : to_int t1 =
                       to_int (total0 + counted (recorded (visited w0)) (f name)) /\
                     recorded (visited w2) =
                       seen_after (recorded (visited w0)) (f name) /\
                     tracker_ok (visited w2)).
      { destruct Hone as (E1 & E2 & Hok2).
        destruct (IHes _ _ _ _ Hok2 Hrest) as (E3 & E4 & Hok1).
        rewrite <- E2. split; [|split; assumption].
        rewrite E3, Z.add_assoc.
        apply to_int_add_congr; [exact E1 | reflexivity]. }
      clear IHes Hrest. rewrite scan_entry_classified in Hstep. unfold f.
      destruct (classify env path name) eqn:Hk.
      * injection Hstep as <- <-. simpl. rewrite Z.add_0_r. auto.
      * injection Hstep as <- <-. simpl.
        rewrite to_int_to_size_t, Z.add_0_r. auto.
      * apply bind_Done in Hstep as (r & w3 & Hrec & [= <- <-]).
        destruct (IH _ _ _ _ Hok Hrec) as (E1 & E2 & Hok3). simpl.
        split; [|split; assumption].
        rewrite to_int_to_size_t.
        apply to_int_add_congr; [reflexivity|].
        rewrite to_int_to_size_t, E1. apply to_int_idemp.
      * apply bind_Done in Hstep as (r & w3 & Hfile & Hstep).
        apply bind_Done in Hstep as (u & w4 & Hprint & [= <- <-]).
        assert (Hv : visited w4 = visited w3).
        { destruct (all_files =? TRUE); injection Hprint as _ <-; reflexivity. }
        rewrite Hv. clear Hprint Hv.
        apply getFileSize_Done in Hfile as (Hok3 & _ & Hcase); [|exact Hok].
        split; [|split; [|exact Hok3]].
        -- rewrite to_int_to_size_t.
           apply to_int_add_congr; [reflexivity|].
           rewrite to_int_to_size_t. simpl.
           destruct Hcase as [[-> [[Hl ->] | (Hl & Hin & ->)]]
                             | (Hl & Hnew & _ & ->)].
           ++ destruct (Z.ltb_spec 1 (st_nlink (lstat env (createPath path name))));
                [lia|]. rewrite Z.add_0_r. apply to_int_idemp.
           ++ apply Z.ltb_lt in Hl. rewrite Hl, decide_True by exact Hin.
              reflexivity.
           ++ apply Z.ltb_lt in Hl. rewrite Hl, decide_False by exact Hnew.
              rewrite Z.add_0_r. apply to_int_idemp.
        -- simpl.
           destruct Hcase as [[-> [[Hl _] | (Hl & Hin & _)]]
                             | (Hl & Hnew & Hrec & _)].
           ++ destruct (Z.ltb_spec 1 (st_nlink (lstat env (createPath path name))));
                [lia|]. reflexivity.
           ++ apply Z.ltb_lt in Hl. rewrite Hl, decide_True by exact Hin.
              reflexivity.
           ++ apply Z.ltb_lt in Hl. rewrite Hl, decide_False by exact Hnew.
              exact Hrec.
      * injection Hstep as <- <-. simpl. rewrite Z.add_0_r. auto.
Qed.

End GrandTotal.

(** ** Runs that return *)

Section Returns.

Context (env : environment).

Hypothesis allocator : generous env.

Lemma addInode_returns (inode : Z) (w : world) :
  tracker_ok (visited w) -> num (visited w) + 1 < 2 ^ 30 ->
  exists w', addInode env inode w = Done tt w' /\
             tracker_ok (visited w') /\
             num (visited w') = num (visited w) + 1.
Proof.
  intros Hok Hnum. pose proof Hok as [Hn Hl].
  pose proof (addInode_Done env inode w) as HD.
  rewrite addInode_cases in * by exact Hok.
  destruct (Z.eqb_spec (num (visited w) + 1) (cap (visited w))) as [Hfull|_].
  - destruct (Z.ltb_spec INT_MAX (cap (visited w) * 2)) as [Hov|_];
      [unfold INT_MAX in Hov; lia|].
    rewrite allocator in *
      by (unfold to_size_t, sizeof_ino_t; rewrite Z.mod_small; lia).
    eexists. split; [reflexivity|].
    split; [|reflexivity]. eapply HD; [exact Hok | reflexivity].
  - eexists. split; [reflexivity|].
    split; [|reflexivity]. eapply HD; [exact Hok | reflexivity].
Qed.

Lemma getFileSize_returns (file_stat : stat_t) (w : world) :
  tracker_ok (visited w) -> num (visited w) + 1 < 2 ^ 30 ->
  exists r w', getFileSize env file_stat w = Done r w' /\
               tracker_ok (visited w') /\
               num (visited w') <= num (visited w) + 1.
Proof.
  intros Hok Hnum. rewrite getFileSize_cases by exact Hok.
  destruct (1 <? st_nlink file_stat); [case_decide|].
  - eexists _, w. split; [reflexivity|]. split; [exact Hok | lia].
  - destruct (addInode_returns (st_ino file_stat) w Hok Hnum)
      as (w' & Hadd & Hok' & Hn).
    unfold bind. rewrite Hadd. eexists _, w'.
    split; [reflexivity|]. split; [exact Hok' | lia].
  - eexists _, w. split; [reflexivity|]. split; [exact Hok | lia].
Qed.

Lemma returns_within_mono (n m : nat) (path : string) :
  (n <= m)%nat -> returns_within env n path -> returns_within env m path.
Proof. intros Hnm H fuel af w Hle. apply H. lia. Qed.

Lemma subdirs_common_returns (path : string) (entries : list string) :
  (forall name, name ∈ entries -> classify env path name = Subdir ->
                exists n, returns_within env n (createPath path name)) ->
  exists n, forall name, name ∈ entries -> classify env path name = Subdir ->
                         returns_within env n (createPath path name).
Proof.
  induction entries as [|e es IH]; intros H.
  - exists O. intros name Hin. inversion Hin.
  - destruct IH as [n Hn].
    { intros name Hin. apply H. now right. }
    destruct (classify env path e) eqn:Hk;
      try (exists n; intros name Hin Hsub;
           apply elem_of_cons in Hin as [->|Hin]; [congruence | now apply Hn]).
    destruct (H e) as [m Hm]; [now left | exact Hk |].
    exists (max n m). intros name Hin Hsub.
    apply elem_of_cons in Hin as [->|Hin].
    + eapply returns_within_mono; [|exact Hm]. lia.
    + eapply returns_within_mono; [|apply Hn; assumption]. lia.
Qed.

Lemma readable_tree_returns (path : string) :
  readable_tree env path -> exists n, returns_within env n path.
Proof.
  induction 1 as [path entries Hdir _ IH].
  destruct (subdirs_common_returns path entries IH) as [n Hn].
  exists (S n). intros fuel af w Hle Hok Hfit.
  destruct fuel as [|fuel]; [lia|]. simpl in *. rewrite Hdir in *.
  set (f := fun name =>
              match classify env path name with
              | Self => [Own (lstat env (createPath path name))]
              | Subdir => census env fuel (createPath path name)
              | Regular => [File (lstat env (createPath path name))]
              | Parent | Other => []
              end) in *.
  enough (Hgen : forall es total0 w0,
             (forall name, name ∈ es -> name ∈ entries) ->
             tracker_ok (visited w0) -> fits (visited w0) (flat_map f es) ->
             exists total w1,
               scan_entries
                 (scan_entry env (fun p => getDirectorySize env fuel p af)
                    path af) total0 es w0 = Done total w1 /\
               tracker_ok (visited w1) /\
               num (visited w1) <=
                 num (visited w0) + Z.of_nat (length (flat_map f es))).
  { destruct (Hgen entries 0 w) as (total & w1 & Hrun & Hok1 & Hn1); auto.
    exists (to_int total), w1. unfold bind. rewrite Hrun. auto. }
  clear Hok Hfit w. unfold fits.
  induction es as [|name es IHes]; intros total0 w0 Hsub Hok Hfit; simpl in *.
  - exists total0, w0. split; [reflexivity|]. split; [exact Hok | lia].
  - rewrite length_app in *.
    assert (Hin : name ∈ entries) by (apply Hsub; now left).
    assert (Hstep : exists t1 w2,
               scan_entry env (fun p => getDirectorySize env fuel p af)
                 path af total0 name w0 = Done t1 w2 /\
               tracker_ok (visited w2) /\
               num (visited w2) <=
                 num (visited w0) + Z.of_nat (length (f name))).
    { rewrite scan_entry_classified. unfold f.
      destruct (classify env path name) eqn:Hk.
      1,2,5: eexists _, w0; split; [reflexivity|];
        split; [exact Hok | simpl; lia].
      - destruct (Hn name Hin Hk fuel af w0) as (r & w2 & Hrec & Hok2 & Hn2);
          [lia | exact Hok | unfold fits, f in *; rewrite Hk in Hfit; lia|].
        unfold bind. rewrite Hrec. eexists _, _. split; [reflexivity|].
        split; [exact Hok2 | exact Hn2].
      - destruct (getFileSize_returns (lstat env (createPath path name)) w0)
          as (r & w2 & Hfile & Hok2 & Hn2); [exact Hok | lia |].
        unfold bind. rewrite Hfile.
        destruct (af =? TRUE); eexists _, _; (split; [reflexivity|]);
          (split; [exact Hok2 | simpl; lia]). }
    destruct Hstep as (t1 & w2 & Hstep & Hok2 & Hn2).
    destruct (IHes t1 w2) as (total & w1 & Hrest & Hok1 & Hn1).
    + intros n0 Hn0. apply Hsub. now right.
    + exact Hok2.
    + lia.
    + exists total, w1. unfold bind. rewrite Hstep.
      split; [exact Hrest|]. split; [exact Hok1 | lia].
Qed.

End Returns.

(** ** The order of the report lines *)

Lemma string_app_assoc (a b c : string) : (a +:+ b) +:+ c = a +:+ (b +:+ c).
Proof.
  induction a as [|x a IH]; [reflexivity|].
  change (String x ((a +:+ b) +:+ c) = String x (a +:+ b +:+ c)).
  rewrite IH. reflexivity.
Qed.

Lemma string_length_app (a b : string) :
  String.length (a +:+ b) = (String.length a + String.length b)%nat.
Proof.
  induction a as [|x a IH]; [reflexivity|].
  change (S (String.length (a +:+ b))
          = S (String.length a + String.length b)).
  rewrite IH. reflexivity.
Qed.

Lemma string_app_nil_r (a : string) : a +:+ "" = a.
Proof.
  induction a as [|x a IH]; [reflexivity|].
  change (String x (a +:+ "") = String x a). rewrite IH. reflexivity.
Qed.

Lemma string_app_inv_head (a b c : string) : a +:+ b = a +:+ c -> b = c.
Proof.
  induction a as [|x a IH]; simpl; [auto|]. intros [= H]. auto.
Qed.

Lemma beneath_length (p q : string) :
  beneath p q -> (String.length p < String.length q)%nat.
Proof.
  intros [rest ->]. rewrite !string_length_app. simpl. lia.
Qed.

Lemma beneath_trans (p q r : string) : beneath p q -> beneath q r -> beneath p r.
Proof.
  intros [a ->] [b ->]. exists (a +:+ "/" +:+ b).
  now rewrite !string_app_assoc.
Qed.

Lemma beneath_createPath (p name : string) : beneath p (createPath p name).
Proof. exists name. reflexivity. Qed.

(** A name without separator is determined by what follows up to the
    first separator. *)
Lemma slash_free_split (n m x y : string) :
  slash_free n = true -> slash_free m = true ->
  n +:+ "/" +:+ x = m +:+ y ->
  y = "" \/ (exists y', y = "/" +:+ y') ->
  n = m.
Proof.
  revert m. induction n as [|a n IH]; intros m Hn Hm E Hy.
  - destruct m as [|c m]; [reflexivity|].
    simpl in E. injection E as <- _. simpl in Hm. discriminate Hm.
  - simpl in Hn. apply andb_true_iff in Hn as [Ha Hn].
    destruct m as [|c m].
    + simpl in E. destruct Hy as [->|[y' ->]]; [discriminate E|].
      simpl in E. injection E as -> _. discriminate Ha.
    + simpl in E. injection E as -> E.
      simpl in Hm. apply andb_true_iff in Hm as [_ Hm].
      f_equal. now apply (IH m).
Qed.

Lemma within_beneath (dir name path : string) :
  within dir name path -> beneath dir path.
Proof.
  intros [->|H]; [apply beneath_createPath|].
  eapply beneath_trans; [apply beneath_createPath | exact H].
Qed.

Lemma siblings_apart (dir n m p q : string) :
  slash_free n = true -> slash_free m = true -> n <> m ->
  within dir n p -> within dir m q -> ~ beneath p q.
Proof.
  intros Hn Hm Hne Hp Hq Hb.
  assert (Hnq : beneath (createPath dir n) q).
  { destruct Hp as [->|Hp]; [exact Hb | eapply beneath_trans; eassumption]. }
  destruct Hnq as [x Ex]. apply Hne.
  assert (Ey : exists y, q = createPath dir m +:+ y /\
                         (y = "" \/ exists y', y = "/" +:+ y')).
  { destruct Hq as [->|[y' ->]].
    - exists "". split; [|now left]. now rewrite string_app_nil_r.
    - exists ("/" +:+ y'). split; [reflexivity|]. right. eauto. }
  destruct Ey as (y & Ey & Hy). rewrite Ey in Ex.
  unfold createPath in Ex. rewrite !string_app_assoc in Ex.
  apply string_app_inv_head in Ex. simpl in Ex. injection Ex as Ex.
  symmetry in Ex. eapply slash_free_split; eassumption.
Qed.

Lemma ordered_app (l1 l2 : list string) :
  ordered l1 -> ordered l2 ->
  (forall p q, p ∈ l1 -> q ∈ l2 -> ~ beneath p q) ->
  ordered (l1 ++ l2).
Proof.
  intros O1 O2 Hsep i j p q Hi Hj Hb.
  destruct (Nat.lt_ge_cases i (length l1)) as [Li|Li],
           (Nat.lt_ge_cases j (length l1)) as [Lj|Lj].
  - rewrite lookup_app_l in Hi, Hj by assumption. eapply O1; eassumption.
  - rewrite lookup_app_l in Hi by assumption.
    rewrite lookup_app_r in Hj by assumption.
    exfalso. eapply Hsep; [| |exact Hb];
      eapply list_elem_of_lookup_2; eassumption.
  - lia.
  - rewrite lookup_app_r in Hi, Hj by assumption.
    pose proof (O2 _ _ _ _ Hi Hj Hb). lia.
Qed.

Lemma ordered_nil : ordered [].
Proof. intros i j p q H. rewrite lookup_nil in H. discriminate. Qed.

Lemma ordered_singleton (p : string) : ordered [p].
Proof.
  intros i j a b Hi Hj Hb.
  apply list_lookup_singleton_Some in Hi as [-> <-].
  apply list_lookup_singleton_Some in Hj as [-> <-].
  apply beneath_length in Hb. lia.
Qed.

Section ReportOrder.

Context (env : environment) (all_files : Z).

Lemma printed_paths_unfold (fuel : nat) (path : string) (entries : list string) :
  opendir env path = Some entries ->
  printed_paths env all_files (S fuel) path
    = flat_map (entry_paths env all_files fuel path) entries.
Proof. intros H. simpl. rewrite H. reflexivity. Qed.

Lemma printed_paths_beneath (fuel : nat) (path q : string) :
  q ∈ printed_paths env all_files fuel path -> beneath path q.
Proof.
  revert path q. induction fuel as [|fuel IH]; intros path q; simpl.
  - intros H. inversion H.
  - destruct (opendir env path) as [entries|]; [|intros H; inversion H].
    intros H. apply list_elem_of_In, in_flat_map in H as (name & _ & H).
    apply list_elem_of_In in H.
    destruct (classify env path name).
    1,2,5: inversion H.
    + apply elem_of_app in H as [H|H].
      * eapply beneath_trans; [apply beneath_createPath | apply IH, H].
      * apply list_elem_of_singleton in H as ->. apply beneath_createPath.
    + destruct (all_files =? TRUE); [|inversion H].
      apply list_elem_of_singleton in H as ->. apply beneath_createPath.
Qed.

Lemma entry_paths_within (fuel : nat) (path name q : string) :
  q ∈ entry_paths env all_files fuel path name -> within path name q.
Proof.
  unfold entry_paths. destruct (classify env path name).
  1,2,5: intros H; inversion H.
  - intros H. apply elem_of_app in H as [H|H].
    + right. eapply printed_paths_beneath, H.
    + apply list_elem_of_singleton in H as ->. now left.
  - destruct (all_files =? TRUE); intros H; [|inversion H].
    apply list_elem_of_singleton in H as ->. now left.
Qed.

Lemma printed_paths_ordered (fuel : nat) (path : string) :
  names_ok env -> ordered (printed_paths env all_files fuel path).
Proof.
  intros Hnames. revert path. induction fuel as [|fuel IH]; intros path.
  - apply ordered_nil.
  - destruct (opendir env path) as [entries|] eqn:Hdir;
      [|simpl; rewrite Hdir; apply ordered_nil].
    rewrite (printed_paths_unfold _ _ _ Hdir).
    destruct (Hnames _ _ Hdir) as [Hnd Hsf]. clear Hdir.
    induction entries as [|name es IHes]; simpl.
    + apply ordered_nil.
    + apply NoDup_cons in Hnd as [Hnew Hnd].
      apply Forall_cons in Hsf as [Hname Hsf].
      apply ordered_app.
      * unfold entry_paths. destruct (classify env path name);
          try apply ordered_nil.
        -- apply ordered_app; [apply IH | apply ordered_singleton |].
           intros p q Hp Hq Hb. apply list_elem_of_singleton in Hq as ->.
           apply printed_paths_beneath, beneath_length in Hp.
           apply beneath_length in Hb. lia.
        -- destruct (all_files =? TRUE);
             [apply ordered_singleton | apply ordered_nil].
      * now apply IHes.
      * intros p q Hp Hq.
        apply list_elem_of_In, in_flat_map in Hq as (m & Hm & Hq).
        apply list_elem_of_In in Hm, Hq.
        apply (siblings_apart path name m).
        -- exact Hname.
        -- rewrite Forall_forall in Hsf. now apply Hsf.
        -- intros ->. contradiction.
        -- eapply entry_paths_within, Hp.
        -- eapply entry_paths_within, Hq.
Qed.

Lemma reports_app (o1 o2 : list line) (p1 p2 : list string) :
  reports o1 p1 -> reports o2 p2 -> reports (o1 ++ o2) (p1 ++ p2).
Proof. apply Forall2_app. Qed.

(** A completed scan prints exactly the lines for [printed_paths]. *)
Lemma walk_paths (fuel : nat) (path : string) (w w' : world) (t : Z) :
  getDirectorySize env fuel path all_files w = Done t w' ->
  exists out, stdout w' = stdout w ++ out /\
              reports out (printed_paths env all_files fuel path).
Proof.
  revert path w w' t. induction fuel as [|fuel IH]; intros path w w' t.
  - discriminate.
  - destruct (opendir env path) as [entries|] eqn:Hdir;
      [|simpl; rewrite Hdir; discriminate].
    rewrite (printed_paths_unfold _ _ _ Hdir). simpl. rewrite Hdir.
    intros H. apply bind_Done in H as (total & w1 & H & [= _ <-]).
    revert H. generalize 0. clear Hdir. revert w.
    induction entries as [|name es IHes]; intros w total0; simpl.
    + intros [= _ <-]. exists []. split; [now rewrite app_nil_r | constructor].
    + intros H. apply bind_Done in H as (t1 & w2 & Hstep & Hrest).
      apply IHes in Hrest as (o2 & E2 & R2).
      enough (exists o1, stdout w2 = stdout w ++ o1 /\
                         reports o1 (entry_paths env all_files fuel path name))
        as (o1 & E1 & R1).
      { exists (o1 ++ o2). split; [|now apply reports_app].
        rewrite E2, E1, app_assoc. reflexivity. }
      clear E2 R2. rewrite scan_entry_classified in Hstep. unfold entry_paths.
      destruct (classify env path name) eqn:Hk.
      1,2,5: injection Hstep as _ <-; exists [];
        split; [now rewrite app_nil_r | constructor].
      * apply bind_Done in Hstep as (r & w3 & Hrec & [= _ <-]).
        apply IH in Hrec as (o & E & R).
        exists (o ++ [Report (to_size_t r) (createPath path name)]).
        split; [simpl; rewrite E, app_assoc; reflexivity|].
        apply reports_app; [exact R|]. repeat constructor. eauto.
      * apply bind_Done in Hstep as (r & w3 & Hfile & Hstep).
        apply bind_Done in Hstep as (u & w4 & Hprint & [= _ <-]).
        apply getFileSize_stdout in Hfile.
        destruct (all_files =? TRUE); injection Hprint as _ <-.
        -- eexists. simpl. rewrite Hfile. split; [reflexivity|].
           repeat constructor. eauto.
        -- exists []. rewrite Hfile.
           split; [now rewrite app_nil_r | constructor].
Qed.

Lemma reports_children_first (out : list line) (paths : list string) :
  reports out paths -> ordered paths -> children_first out.
Proof.
  intros HR HO i j si sj p q Hi Hj Hb.
  destruct (Forall2_lookup_l _ _ _ _ _ HR Hi) as (p' & Hp' & s1 & [= <- <-]).
  destruct (Forall2_lookup_l _ _ _ _ _ HR Hj) as (q' & Hq' & s2 & [= <- <-]).
  eapply HO; eassumption.
Qed.

End ReportOrder.

Lemma sample_names_ok : names_ok Sample.env.
Proof.
  intros path entries Hdir.
  unfold Sample.env, Sample.make_env, Sample.lookup in Hdir. simpl in Hdir.
  repeat (destruct (String.eqb path _);
          [injection Hdir as <-; split;
           [apply (bool_decide_unpack _); vm_compute; exact I
           |repeat constructor]|]).
  discriminate Hdir.
Qed.

(** * The specified properties *)

(** Hard links, at every size.  In every traversal that completes from a
    well-formed tracker without duplicates, the total returned is the
    exact count of the entries below the directory, converted to [int],
    and in that count a file with several links, none of them counted
    before, occurs exactly once: with all its names taken out of the tree the count is
    lower by one allocation size, however many names there are.  The
    tracker stays well formed and free of duplicates, and what is
    recorded stays recorded.  Call by call: for an entry with several
    links whose inode is not recorded, [getFileSize] (when there is room
    in the array, or the array can grow) returns the allocation size
    converted to [int], which is the size itself when it is at most
    [INT_MAX], and records the inode; once the inode is recorded every
    call returns 0 and changes nothing. *)
Theorem hard_link_counted_once (env : environment) (fuel : nat)
    (path : string) (all_files : Z) (w w' : world) (t : Z) :
  tracker_ok (visited w) ->
  NoDup (recorded (visited w)) ->
  getDirectorySize env fuel path all_files w = Done t w' ->
  let seen := recorded (visited w) in
  let below := census env fuel path in
  (t = to_int (counted seen below) /\
   forall i a,
     i ∉ seen ->
     (forall s, File s ∈ below -> st_ino s = i ->
                1 < st_nlink s /\ allocation s = a) ->
     (exists s, File s ∈ below /\ st_ino s = i) ->
     counted seen below = a + counted seen (without i below)) /\
  (tracker_ok (visited w') /\ NoDup (recorded (visited w')) /\
   exists new, recorded (visited w') = seen ++ new) /\
  (forall file_stat w0,
      tracker_ok (visited w0) -> 1 < st_nlink file_stat ->
      let v := visited w0 in
      let size := allocation file_stat in
      (st_ino file_stat ∈ recorded v ->
       getFileSize env file_stat w0 = Done 0 w0) /\
      (st_ino file_stat ∉ recorded v ->
       (forall r w1, getFileSize env file_stat w0 = Done r w1 ->
                     r = to_int size /\
                     recorded (visited w1) = recorded v ++ [st_ino file_stat]) /\
       (num v + 1 < cap v \/
        (cap v * 2 <= INT_MAX /\
         realloc_ok env (to_size_t (cap v * 2 * sizeof_ino_t)) = true) ->
        exists w1, getFileSize env file_stat w0 = Done (to_int size) w1) /\
       (0 <= size <= INT_MAX -> to_int size = size))).
Proof.
  intros Hok Hnd Hrun seen below.
  destruct (walk_exact env fuel path all_files w w' t Hok Hrun) as (Ht & _ & _).
  destruct (walk_tracker env fuel path all_files w w' t Hrun Hok)
    as (Hok' & Hpre & Hnd').
  split; [split; [exact Ht|]|split; [auto|]].
  - intros i a Hi Hl Hex. now apply counted_once.
  - intros file_stat w0 Hok0 Hl v size. apply Z.ltb_lt in Hl.
    pose proof (getFileSize_cases env file_stat w0 Hok0) as Hc.
    rewrite Hl in Hc. fold v in Hc. split.
    + intros Hin. rewrite Hc, decide_True by exact Hin. reflexivity.
    + intros Hnew. rewrite decide_False in Hc by exact Hnew.
      split; [|split].
      * intros r w1 H. apply getFileSize_Done in H as (_ & _ & Hcase);
          [|exact Hok0].
        destruct Hcase as [[_ [[? _] | (_ & ? & _)]] | (_ & _ & Hrec & ->)];
          [apply Z.ltb_lt in Hl; lia | contradiction | auto].
      * intros Hroom. rewrite Hc. unfold bind.
        rewrite addInode_cases by exact Hok0. fold v.
        destruct Hok0 as [Hn _]. fold v in Hn.
        destruct Hroom as [Hroom | [Hcap Hre]].
        -- destruct (Z.eqb_spec (num v + 1) (cap v)); [lia|]. eauto.
        -- apply Z.leb_le in Hcap. rewrite Z.leb_antisym in Hcap.
           apply negb_true_iff in Hcap. rewrite Hcap, Hre.
           destruct (num v + 1 =? cap v); eauto.
      * intros Hr. apply to_int_small. unfold INT_MAX in *. lia.
Qed.

Lemma hard_link_counted_once_witness :
  tracker_ok (visited Sample.fresh) /\
  NoDup (recorded (visited Sample.fresh)) /\
  (exists w', getDirectorySize Sample.env 2 "d" TRUE Sample.fresh = Done 13 w' /\
              recorded (visited w') = [7]) /\
  counted [] (census Sample.env 2 "d")
    = 4 + counted [] (without 7 (census Sample.env 2 "d")) /\
  (exists w1, getFileSize Sample.env (Sample.reg_stat 7 3 8) Sample.fresh
                = Done 4 w1).
Proof.
  assert (H1 : tracker_ok (visited Sample.fresh)) by apply tracker_ok_init.
  assert (H2 : NoDup (recorded (visited Sample.fresh))) by constructor.
  split; [exact H1|]. split; [exact H2|].
  destruct (hard_link_counted_once Sample.env 2 "d" TRUE Sample.fresh _ 13
              H1 H2 eq_refl) as ((_ & Honce) & _ & Hcall).
  split; [eexists; split; reflexivity|]. split.
  - apply (Honce 7 4).
    + intros H. inversion H.
    + intros s Hs Hi. vm_compute in Hs.
      repeat (apply elem_of_cons in Hs as [Hs|Hs]);
        try discriminate Hs; try (inversion Hs; fail);
        injection Hs as ->; try (vm_compute in Hi; discriminate Hi);
        split; reflexivity.
    + exists (Sample.reg_stat 7 3 8). split; [|reflexivity].
      vm_compute. right. right. now left.
  - destruct (Hcall (Sample.reg_stat 7 3 8) Sample.fresh H1 eq_refl)
      as (_ & Hfirst).
    destruct Hfirst as (_ & Hroom & _); [intros H; inversion H|].
    apply Hroom. left. reflexivity.
Defined.

(** C1.  The code at a 2 TiB file with two names, [pair/p] and [pair/q]:
    the first [getFileSize] call for its inode records it but returns
    -2^31, not the allocation size 2^31 the claim and the function's own
    description ("returns: the size of the file") ask for; the second
    call returns 0 as claimed; and the total of the directory with both
    names comes out as -2147483644, so the size is not what was added to
    the grand total.  The value goes through the [int] return type of
    [getFileSize]. *)
Lemma hard_link_2TiB :
  let file_stat := lstat Sample.pair_env "pair/p" in
  let w1 := with_visited Sample.fresh
              {| num := 1; cap := 16; arr := 5 :: replicate 15 0 |} in
  file_stat = lstat Sample.pair_env "pair/q" /\
  S_ISREG (st_mode file_stat) = true /\ 1 < st_nlink file_stat /\
  allocation file_stat = 2147483648 /\
  getFileSize Sample.pair_env file_stat Sample.fresh = Done (-2147483648) w1 /\
  getFileSize Sample.pair_env file_stat Sample.fresh
    <> Done (allocation file_stat) w1 /\
  getFileSize Sample.pair_env file_stat w1 = Done 0 w1 /\
  getDirectorySize Sample.pair_env 2 "pair" FALSE Sample.fresh
    = Done (-2147483644) w1.
Proof.
  cbv zeta. repeat (split; [reflexivity || discriminate|]). reflexivity.
Qed.

(** The total of one directory, at every size.  For a directory that can
    be opened, the call is the exact sum of (a) its own allocation size, taken at its "." entry, (b)
    the allocation sizes of its regular-file entries that are not
    deduplicated away and (c) the totals returned by the recursive calls
    on its subdirectory entries, converted to [int] on return: the total
    returned is that sum itself whenever the sum fits in [int].  A
    directory that lists only "." (once) and ".." returns its own
    allocation size, converted likewise, and changes nothing. *)
Theorem directory_total (env : environment) (fuel : nat) (path : string)
    (all_files : Z) (entries : list string) (w : world) :
  opendir env path = Some entries ->
  let recurse := fun p => getDirectorySize env fuel p all_files in
  let own := allocation (lstat env (createPath path ".")) in
  (forall t w',
      getDirectorySize env (S fuel) path all_files w = Done t w' ->
      exists cs,
        contributions env recurse path all_files entries w = Done cs w' /\
        t = to_int (sum_of Self cs + sum_of Regular cs + sum_of Subdir cs) /\
        (- 2 ^ 31 <= sum_of Self cs + sum_of Regular cs + sum_of Subdir cs
           <= INT_MAX ->
         t = sum_of Self cs + sum_of Regular cs + sum_of Subdir cs) /\
        (self_entries entries = 1%nat -> sum_of Self cs = own)) /\
  (forall cs w',
      contributions env recurse path all_files entries w = Done cs w' ->
      getDirectorySize env (S fuel) path all_files w
        = Done (to_int (sum_of Self cs + sum_of Regular cs + sum_of Subdir cs))
               w') /\
  ((forall name, name ∈ entries -> name = "." \/ name = "..") ->
   self_entries entries = 1%nat ->
   getDirectorySize env (S fuel) path all_files w = Done (to_int own) w /\
   (0 <= own <= INT_MAX ->
    getDirectorySize env (S fuel) path all_files w = Done own w)).
Proof.
  intros Hdir recurse own.
  pose proof (getDirectorySize_contributions env fuel path all_files entries w
                Hdir) as Heq.
  fold recurse in Heq.
  split; [|split].
  - intros t w' H. rewrite Heq in H.
    apply bind_Done in H as (cs & w1 & Hcs & [= <- <-]).
    exists cs. split; [exact Hcs|]. split; [reflexivity|]. split.
    + intros Hr. apply to_int_small. exact Hr.
    + intros Hone. rewrite (contributions_Self _ _ _ _ _ _ _ _ Hcs), Hone.
      fold own. lia.
  - intros cs w' Hcs. rewrite Heq. unfold bind. rewrite Hcs. reflexivity.
  - intros Hdots Hone.
    destruct (contributions_dots env recurse path all_files entries w Hdots)
      as (cs & Hcs & Hr & Hs).
    assert (Hrun : getDirectorySize env (S fuel) path all_files w
                   = Done (to_int own) w).
    { rewrite Heq. unfold bind. rewrite Hcs. unfold ret, directory_sum.
      rewrite (contributions_Self _ _ _ _ _ _ _ _ Hcs), Hone, Hr, Hs.
      fold own. do 2 f_equal. lia. }
    split; [exact Hrun|].
    intros Hown. rewrite Hrun, to_int_small; [reflexivity|].
    unfold INT_MAX in *. lia.
Qed.

Lemma directory_total_witness :
  opendir Sample.env "d" = Some [ "."; ".."; "sub"; "f"; "a"; "b"; "lnk" ] /\
  (exists w' cs,
      getDirectorySize Sample.env 2 "d" TRUE Sample.fresh = Done 13 w' /\
      contributions Sample.env
        (fun p => getDirectorySize Sample.env 1 p TRUE) "d" TRUE
        [ "."; ".."; "sub"; "f"; "a"; "b"; "lnk" ] Sample.fresh = Done cs w' /\
      13 = sum_of Self cs + sum_of Regular cs + sum_of Subdir cs /\
      sum_of Self cs = allocation (lstat Sample.env (createPath "d" "."))).
Proof.
  split; [reflexivity|].
  destruct (directory_total Sample.env 1 "d" TRUE _ Sample.fresh eq_refl)
    as (H & _).
  destruct (H 13 _ eq_refl) as (cs & Hcs & Ht & Hexact & Hown).
  eexists. exists cs. split; [reflexivity|]. split; [exact Hcs|].
  split; [|apply Hown; reflexivity].
  apply Hexact. vm_compute in Hcs. injection Hcs as <-.
  split; discriminate.
Defined.

(** C2.  The code at a directory [vol] holding two files of 1 TiB: its
    own 4 units and the 2^30 units of each file add up to 2147483652, the
    sum the claim and the function's own description ("returns: the total
    size of the directory") ask for, and the call returns -2147483644.
    The sum is kept in a [size_t] and goes through the [int] return type
    of [getDirectorySize]. *)
Lemma directory_total_two_TiB :
  opendir Sample.twin_env "vol" = Some [ "."; ".."; "x"; "y" ] /\
  contributions Sample.twin_env
    (fun p => getDirectorySize Sample.twin_env 1 p FALSE) "vol" FALSE
    [ "."; ".."; "x"; "y" ] Sample.fresh
    = Done [ (Self, 4); (Parent, 0); (Regular, 1073741824);
             (Regular, 1073741824) ] Sample.fresh /\
  getDirectorySize Sample.twin_env 2 "vol" FALSE Sample.fresh
    = Done (-2147483644) Sample.fresh /\
  -2147483644 <> 4 + 1073741824 + 1073741824.
Proof.
  split; [reflexivity|]. split; [reflexivity|]. split; [reflexivity|].
  discriminate.
Qed.

(** C3. The ".." entry is passed over and the "." entry accounted for
    without the recursive call being made (the outcome is the same even
    for a recursion that never returns), no entry other than a
    subdirectory waits for the recursion, and on a finite directory tree
    there is a recursion budget from which on [getDirectorySize] never
    runs out and always has the same outcome: the traversal terminates,
    although every directory lists itself and its parent.  When moreover
    every directory of the tree can be opened, the allocator grants what
    is asked and the tracker has room for the inodes of the tree, the
    call returns. *)
Theorem traversal_terminates (env : environment) (path : string) :
  finite_tree env path ->
  (forall p all_files total w,
      scan_entry env (fun _ _ => Timeout) p all_files total ".." w
        = Done total w /\
      scan_entry env (fun _ _ => Timeout) p all_files total "." w
        = Done (to_size_t (total + allocation (lstat env (createPath p ".")))) w /\
      forall name,
        classify env p name <> Subdir ->
        scan_entry env (fun _ _ => Timeout) p all_files total name w
          <> Timeout) /\
  (exists n, forall fuel all_files w,
      (n <= fuel)%nat ->
      getDirectorySize env fuel path all_files w <> Timeout /\
      getDirectorySize env fuel path all_files w
        = getDirectorySize env n path all_files w) /\
  (readable_tree env path -> generous env ->
   exists n, forall fuel all_files w,
       (n <= fuel)%nat ->
       tracker_ok (visited w) -> fits (visited w) (census env fuel path) ->
       exists t w', getDirectorySize env fuel path all_files w = Done t w').
Proof.
  intros Hfin. split; [|split].
  - intros p af total w. split; [reflexivity|]. split; [reflexivity|].
    intros name Hk H.
    apply (scan_entries_not_Timeout env (fun _ _ => Timeout) p af [name] total w).
    + intros n w0 Hin Hsub. apply list_elem_of_singleton in Hin as ->.
      contradiction.
    + simpl. unfold bind. rewrite H. reflexivity.
  - apply finite_tree_terminates in Hfin as [n Hn]. exists n.
    intros fuel af w Hle. split; [now apply Hn|].
    apply getDirectorySize_stable; [exact Hle|]. now apply Hn.
  - intros Hread Hall.
    destruct (readable_tree_returns env Hall path Hread) as [n Hn].
    exists n. intros fuel af w Hle Hok Hfit.
    destruct (Hn fuel af w Hle Hok Hfit) as (t & w' & Hrun & _). eauto.
Qed.

Lemma traversal_terminates_witness :
  finite_tree Sample.env "d" /\
  (exists n, forall fuel all_files w,
      (n <= fuel)%nat ->
      getDirectorySize Sample.env fuel "d" all_files w <> Timeout /\
      getDirectorySize Sample.env fuel "d" all_files w
        = getDirectorySize Sample.env n "d" all_files w) /\
  readable_tree Sample.env "d" /\ generous Sample.env /\
  (exists n, forall fuel all_files w,
      (n <= fuel)%nat ->
      tracker_ok (visited w) ->
      fits (visited w) (census Sample.env fuel "d") ->
      exists t w', getDirectorySize Sample.env fuel "d" all_files w = Done t w') /\
  exists w', getDirectorySize Sample.env 2 "d" TRUE Sample.fresh = Done 13 w'.
Proof.
  destruct (traversal_terminates Sample.env "d" sample_tree_finite)
    as (_ & Hterm & Hret).
  split; [exact sample_tree_finite|]. split; [exact Hterm|].
  split; [exact sample_tree_readable|]. split; [exact sample_generous|].
  split; [exact (Hret sample_tree_readable sample_generous)|].
  eexists. reflexivity.
Defined.

(** C4.  In every run of [main] that completes, the lines printed are
    the reports of the scan of the root followed by one last line: the
    report of the root path (with its separator put back when one was
    trimmed), carrying the total [getDirectorySize] returned.  The
    reports of the scan follow the depth-first listing [printed_paths],
    all lie beneath the root, and (the file system listing each name once
    and without separator) whatever lies beneath a reported path is
    reported before it. *)
Theorem report_order (env : environment) (fuel : nat) (argv : list string)
    (w0 w : world) (status : Z) :
  main env fuel argv w0 = Done status w ->
  let argc := Z.of_nat (length argv) in
  let all_files := parseOptions argc argv in
  let path := fst (trimPath (parsePath argc argv)) in
  let slash := snd (trimPath (parsePath argc argv)) in
  let root := if slash =? TRUE then path +:+ "/" else path in
  exists body t w1,
    getDirectorySize env fuel path all_files (with_visited w0 visited_init)
      = Done t w1 /\
    stdout w1 = stdout w0 ++ body /\
    stdout w = stdout w0 ++ body ++ [Report (to_size_t t) root] /\
    last (stdout w) = Some (Report (to_size_t t) root) /\
    reports body (printed_paths env all_files fuel path) /\
    Forall (beneath path) (printed_paths env all_files fuel path) /\
    (names_ok env -> children_first (body ++ [Report (to_size_t t) root])).
Proof.
  intros H argc all_files path slash root. unfold main in H.
  fold argc in H. fold all_files in H.
  destruct (3 <? argc); [discriminate H|]. cbv zeta in H.
  fold path in H. fold slash in H.
  destruct (doesPathExist env path); simpl in H; [|discriminate H].
  apply bind_Done in H as (u & w1 & [= _ <-] & H).
  apply bind_Done in H as (t & w2 & Hrun & H).
  apply bind_Done in H as (u' & w3 & [= _ <-] & [= _ <-]).
  fold root. fold (with_visited w0 visited_init) in Hrun.
  destruct (walk_paths env all_files fuel path _ _ _ Hrun) as (body & E & R).
  simpl in E. exists body, t, w2.
  split; [exact Hrun|]. split; [exact E|]. simpl. rewrite E.
  split; [now rewrite app_assoc|]. split; [|split; [exact R|split]].
  - apply last_snoc.
  - apply Forall_forall. intros p. apply printed_paths_beneath.
  - intros Hnames.
    apply reports_children_first
      with (paths := printed_paths env all_files fuel path ++ [root]).
    + apply reports_app; [exact R|]. repeat constructor. eauto.
    + apply ordered_app.
      * now apply printed_paths_ordered.
      * apply ordered_singleton.
      * intros p q Hp Hq Hb. apply list_elem_of_singleton in Hq as ->.
        apply printed_paths_beneath, beneath_length in Hp.
        apply beneath_length in Hb.
        assert (String.length root <= String.length path + 1)%nat; [|lia].
        unfold root. destruct (slash =? TRUE); [|lia].
        rewrite string_length_app. simpl. lia.
Qed.

Lemma report_order_witness :
  let w := {| visited := {| num := 1; cap := 16; arr := 7 :: replicate 15 0 |};
              stdout := [ Report 4 "d/sub/c"; Report 8 "d/sub"; Report 1 "d/f";
                          Report 0 "d/a"; Report 0 "d/b"; Report 13 "d/" ] |} in
  main Sample.env 2 [ "du"; "--all"; "d//" ] Sample.start = Done 0 w /\
  last (stdout w) = Some (Report 13 "d/") /\
  children_first (stdout w).
Proof.
  intros w.
  assert (Hmain : main Sample.env 2 [ "du"; "--all"; "d//" ] Sample.start
                  = Done 0 w) by reflexivity.
  split; [exact Hmain|].
  destruct (report_order Sample.env 2 _ Sample.start w 0 Hmain)
    as (body & t & w1 & Hrun & _ & Eout & Hlast & _ & _ & Hfirst).
  vm_compute in Hrun. injection Hrun as <- _.
  split; [exact Hlast|].
  rewrite Eout. exact (Hfirst sample_names_ok).
Defined.


(** C5. Whatever the recursion and the flag, the ".." entry changes
    neither the running total nor the world (it is dropped before the
    path is built or [lstat] is asked: the outcome does not mention the
    environment), and the "." entry adds the directory's own allocation
    size to the running total and changes nothing else.  No line a
    completed scan prints is for a "." or ".." entry. *)
Theorem dot_entries (env : environment) (recurse : string -> M Z)
    (path : string) (all_files total : Z) (w : world) :
  let own := allocation (lstat env (createPath path ".")) in
  scan_entry env recurse path all_files total ".." w = Done total w /\
  scan_entry env recurse path all_files total "." w
    = Done (to_size_t (total + own)) w /\
  (0 <= total -> 0 <= own -> total + own < 2 ^ 64 ->
   scan_entry env recurse path all_files total "." w = Done (total + own) w) /\
  (forall fuel t w',
      getDirectorySize env fuel path all_files w = Done t w' ->
      exists out,
        stdout w' = stdout w ++ out /\
        Forall (fun l => exists size p entries name,
                    l = Report size (createPath p name) /\
                    opendir env p = Some entries /\ name ∈ entries /\
                    name <> "." /\ name <> "..") out).
Proof.
  intros own. split; [reflexivity|]. split; [reflexivity|]. split.
  - intros H0 H1 H2. unfold scan_entry. simpl. fold (createPath path ".").
    unfold ret. f_equal. apply to_size_t_small. unfold own, allocation in *. lia.
  - intros fuel t w' H. apply walk_reports in H as (out & E & F).
    exists out. split; [exact E|].
    eapply Forall_impl; [exact F|]. intros l. apply report_of_entry.
Qed.

Lemma dot_entries_witness :
  scan_entry Sample.env (fun _ _ => Timeout) "d" TRUE 0 ".." Sample.fresh
    = Done 0 Sample.fresh /\
  scan_entry Sample.env (fun _ _ => Timeout) "d" TRUE 0 "." Sample.fresh
    = Done 4 Sample.fresh /\
  (exists w', getDirectorySize Sample.env 2 "d" TRUE Sample.fresh = Done 13 w' /\
     exists out,
       stdout w' = stdout Sample.fresh ++ out /\
       Forall (fun l => exists size p entries name,
                   l = Report size (createPath p name) /\
                   opendir Sample.env p = Some entries /\ name ∈ entries /\
                   name <> "." /\ name <> "..") out).
Proof.
  destruct (dot_entries Sample.env (fun _ _ => Timeout) "d" TRUE 0 Sample.fresh)
    as (Hparent & _ & Hself & Hrun).
  split; [exact Hparent|]. split.
  - apply Hself; [discriminate | discriminate | reflexivity].
  - eexists. split; [reflexivity|]. apply (Hrun 2%nat 13). reflexivity.
Defined.

(** C6. An entry other than "." and ".." whose [lstat] mode is neither
    directory nor regular file (a symbolic link in particular, whatever it
    points to) leaves the running total and the world untouched: nothing
    is added, nothing printed, nothing recorded, and the recursive call
    is not made, whatever the flag, the recursion and the rest of the
    environment are.  Accordingly every line of a completed scan reports
    a path whose [lstat] mode is directory or regular file. *)
Theorem other_entries_ignored (env : environment) (recurse : string -> M Z)
    (path : string) (all_files total : Z) (entry_name : string) (w : world) :
  let m := st_mode (lstat env (createPath path entry_name)) in
  entry_name <> ".." -> entry_name <> "." ->
  S_ISLNK m = true \/ (S_ISDIR m = false /\ S_ISREG m = false) ->
  classify env path entry_name = Other /\
  scan_entry env recurse path all_files total entry_name w = Done total w /\
  (forall fuel t w',
      getDirectorySize env fuel path all_files w = Done t w' ->
      exists out,
        stdout w' = stdout w ++ out /\
        Forall (fun l => exists size q,
                    l = Report size q /\
                    (S_ISDIR (st_mode (lstat env q)) = true \/
                     S_ISREG (st_mode (lstat env q)) = true)) out).
Proof.
  intros m N1 N2 Hm.
  assert (Hk : classify env path entry_name = Other).
  { apply classify_Other; try assumption; fold m;
      destruct Hm as [Hl | [Hd Hr]]; try assumption;
      apply mode_kinds_exclusive in Hl; tauto. }
  split; [exact Hk|]. split.
  - rewrite scan_entry_classified, Hk. reflexivity.
  - intros fuel t w' H. apply walk_reports in H as (out & E & F).
    exists out. split; [exact E|].
    eapply Forall_impl; [exact F|]. intros l. apply report_of_mode.
Qed.

Lemma other_entries_ignored_witness :
  ("lnk" : string) <> ".." /\ ("lnk" : string) <> "." /\
  S_ISLNK (st_mode (lstat Sample.env (createPath "d" "lnk"))) = true /\
  stat Sample.env (createPath "d" "lnk") = Some (Sample.dir_stat 1 8) /\
  (exists entries, opendir Sample.env (createPath "d" "lnk") = Some entries) /\
  scan_entry Sample.env (fun _ _ => Timeout) "d" TRUE 5 "lnk" Sample.fresh
    = Done 5 Sample.fresh.
Proof.
  assert (N1 : ("lnk" : string) <> "..") by discriminate.
  assert (N2 : ("lnk" : string) <> ".") by discriminate.
  assert (L : S_ISLNK (st_mode (lstat Sample.env (createPath "d" "lnk"))) = true)
    by reflexivity.
  split; [exact N1|]. split; [exact N2|]. split; [exact L|].
  split; [reflexivity|]. split; [eexists; reflexivity|].
  exact (proj1 (proj2 (other_entries_ignored Sample.env (fun _ _ => Timeout)
                         "d" TRUE 5 "lnk" Sample.fresh N1 N2 (or_introl L)))).
Defined.

(** C7. Without the flag, every line a completed scan prints reports a
    path whose [lstat] mode is a directory.  With the flag, the loop body
    prints for a regular-file entry one line carrying exactly the size it
    adds to the running total; that line carries size 0 when the entry
    has several links and its inode is already recorded; and every
    regular-file entry of a scanned directory has its line in the
    output. *)
Theorem report_selection (env : environment) (fuel : nat) (path : string)
    (w : world) :
  (forall all_files t w',
      all_files <> TRUE ->
      getDirectorySize env fuel path all_files w = Done t w' ->
      exists out,
        stdout w' = stdout w ++ out /\
        Forall (fun l => exists size p,
                    l = Report size p /\
                    S_ISDIR (st_mode (lstat env p)) = true) out) /\
  (forall recurse total name t w',
      classify env path name = Regular ->
      scan_entry env recurse path TRUE total name w = Done t w' ->
      exists size,
        stdout w' = stdout w ++ [Report size (createPath path name)] /\
        t = to_size_t (total + size)) /\
  (forall recurse total name,
      classify env path name = Regular ->
      tracker_ok (visited w) ->
      1 < st_nlink (lstat env (createPath path name)) ->
      st_ino (lstat env (createPath path name)) ∈ recorded (visited w) ->
      scan_entry env recurse path TRUE total name w
        = Done (to_size_t total) (reported w 0 (createPath path name))) /\
  (forall entries name t w',
      opendir env path = Some entries -> name ∈ entries ->
      classify env path name = Regular ->
      getDirectorySize env (S fuel) path TRUE w = Done t w' ->
      exists out size,
        stdout w' = stdout w ++ out /\
        Report size (createPath path name) ∈ out).
Proof.
  split; [|split; [|split]].
  - intros af t w' Haf H. apply walk_reports in H as (out & E & F).
    exists out. split; [exact E|].
    eapply Forall_impl; [exact F|]. intros l. now apply report_of_directory.
  - intros recurse total name t w' Hk H.
    apply scan_entry_Regular in H as (r & w1 & Hfile & -> & ->); [|exact Hk].
    apply getFileSize_stdout in Hfile.
    exists (to_size_t r). simpl. rewrite Hfile. auto.
  - intros recurse total name Hk Hok Hl Hin.
    rewrite scan_entry_classified, Hk. unfold bind at 1.
    rewrite getFileSize_cases by exact Hok.
    apply Z.ltb_lt in Hl. rewrite Hl, decide_True by exact Hin.
    cbn. unfold reported, ret. do 2 f_equal. 
    now rewrite Z.add_0_r.
  - intros entries name t w' Hdir Hin Hk. simpl. rewrite Hdir. intros H.
    apply bind_Done in H as (t1 & w1 & H & [= _ <-]).
    eapply scan_entries_regular_reported; eassumption.
Qed.

Lemma report_selection_witness :
  (exists w', getDirectorySize Sample.env 2 "d" FALSE Sample.fresh = Done 13 w' /\
     exists out,
       stdout w' = stdout Sample.fresh ++ out /\
       Forall (fun l => exists size p,
                   l = Report size p /\
                   S_ISDIR (st_mode (lstat Sample.env p)) = true) out) /\
  (let w := with_visited Sample.fresh
              {| num := 1; cap := 16; arr := 7 :: replicate 15 0 |} in
   scan_entry Sample.env (fun _ _ => Timeout) "d" TRUE 9 "b" w
     = Done 9 (reported w 0 "d/b")) /\
  (exists w', getDirectorySize Sample.env 2 "d" TRUE Sample.fresh = Done 13 w' /\
     exists out size, stdout w' = stdout Sample.fresh ++ out /\
                      Report size (createPath "d" "a") ∈ out).
Proof.
  split; [|split].
  - eexists. split; [reflexivity|].
    destruct (report_selection Sample.env 2 "d" Sample.fresh) as (H & _).
    apply (H FALSE 13); [discriminate | reflexivity].
  - cbv zeta.
    destruct (report_selection Sample.env 0 "d"
                (with_visited Sample.fresh
                   {| num := 1; cap := 16; arr := 7 :: replicate 15 0 |}))
      as (_ & _ & H & _).
    apply (H (fun _ _ => Timeout) 9 "b").
    + reflexivity.
    + split; [split|]; reflexivity || discriminate.
    + reflexivity.
    + left.
  - eexists. split; [reflexivity|].
    destruct (report_selection Sample.env 1 "d" Sample.fresh) as (_ & _ & _ & H).
    eapply (H _ "a" 13); [reflexivity | | reflexivity | reflexivity].
    right. right. right. right. left.
Defined.

(** Singly linked files, at every size.  For an entry with link count at
    most 1, [getFileSize] returns the allocation size converted to [int], which is
    the full allocation size whenever that is at most [INT_MAX], whatever
    the tracker holds, and leaves the world (hence the visited-inode
    array) exactly as it was. *)
Theorem getFileSize_single_link (env : environment) (file_stat : stat_t)
    (w : world) :
  st_nlink file_stat <= 1 ->
  getFileSize env file_stat w = Done (to_int (allocation file_stat)) w /\
  (0 <= allocation file_stat <= INT_MAX ->
   getFileSize env file_stat w = Done (allocation file_stat) w).
Proof.
  intros Hl. unfold getFileSize, allocation.
  destruct (Z.ltb_spec 1 (st_nlink file_stat)) as [?|_]; [lia|].
  split; [reflexivity|]. intros Hr.
  rewrite to_int_small by (unfold INT_MAX in *; lia). reflexivity.
Qed.

Lemma getFileSize_single_link_witness :
  st_nlink (Sample.reg_stat 3 1 2) <= 1 /\
  0 <= allocation (Sample.reg_stat 3 1 2) <= INT_MAX /\
  getFileSize Sample.env (Sample.reg_stat 3 1 2) Sample.almost_full =
    Done 1 Sample.almost_full.
Proof.
  assert (H1 : st_nlink (Sample.reg_stat 3 1 2) <= 1) by discriminate.
  assert (H2 : 0 <= allocation (Sample.reg_stat 3 1 2) <= INT_MAX)
    by (split; discriminate).
  split; [exact H1|]. split; [exact H2|].
  exact (proj2 (getFileSize_single_link Sample.env _ Sample.almost_full H1) H2).
Defined.

(** C8.  The code at a singly linked file of 2 TiB: its allocation size
    is 2^31 units, and [getFileSize] returns -2^31, not the full
    allocation size the claim and the function's own description
    ("returns: the size of the file") ask for; the tracker is left as it
    was, as claimed.  The value goes through the [int] return type of
    [getFileSize]. *)
Lemma getFileSize_single_link_2TiB :
  let file_stat := Sample.reg_stat 5 1 (2 ^ 32) in
  S_ISREG (st_mode file_stat) = true /\
  st_nlink file_stat <= 1 /\
  allocation file_stat = 2147483648 /\
  getFileSize Sample.big_env file_stat Sample.fresh
    = Done (-2147483648) Sample.fresh /\
  getFileSize Sample.big_env file_stat Sample.fresh
    <> Done (allocation file_stat) Sample.fresh.
Proof.
  cbv zeta. split; [reflexivity|]. split; [discriminate|].
  split; [reflexivity|]. split; [reflexivity|]. discriminate.
Qed.




(** C10. For every recursion budget, starting directory and initial
    tracker, two runs of [getDirectorySize] that differ in the flag (and
    in what has been printed so far) have the same outcome once their
    output is forgotten: they return the same total and leave the same
    visited-inode array, or stop in the same way. *)
Theorem flag_only_affects_output (env : environment) (fuel : nat)
    (path : string) (flag1 flag2 : Z) (w1 w2 : world) :
  visited w1 = visited w2 ->
  silent (getDirectorySize env fuel path flag1 w1) =
  silent (getDirectorySize env fuel path flag2 w2) /\
  (forall t w1',
      getDirectorySize env fuel path flag1 w1 = Done t w1' ->
      exists w2', getDirectorySize env fuel path flag2 w2 = Done t w2' /\
                  visited w2' = visited w1').
Proof.
  intros Hv.
  pose proof (walk_flag_silent env fuel path flag1 flag2 w1 w2 Hv) as H.
  split; [exact H|].
  intros t w1' H1. rewrite H1 in H.
  destruct (getDirectorySize env fuel path flag2 w2) as [t2 w2'| | |];
    try discriminate H.
  apply silent_Done in H as [-> Hv']. eauto.
Qed.

Lemma flag_only_affects_output_witness :
  visited Sample.fresh = visited Sample.fresh /\
  silent (getDirectorySize Sample.env 2 "d" TRUE Sample.fresh) =
  silent (getDirectorySize Sample.env 2 "d" FALSE Sample.fresh) /\
  exists w', getDirectorySize Sample.env 2 "d" FALSE Sample.fresh = Done 13 w' /\
             recorded (visited w') = [7].
Proof.
  destruct (flag_only_affects_output Sample.env 2 "d" TRUE FALSE
              Sample.fresh Sample.fresh eq_refl) as [Hs Hd].
  split; [reflexivity|]. split; [exact Hs|].
  destruct (Hd 13 _ eq_refl) as (w' & Hrun & Hv).
  exists w'. split; [exact Hrun|]. rewrite Hv. reflexivity.
Defined.


(** * Further properties of the code *)

(** ** [trimPath] *)

Lemma substring_0_all (s : string) : String.substring 0 (String.length s) s = s.
Proof.
  induction s as [|c s IH]; [reflexivity|].
  change (String c (String.substring 0 (String.length s) s) = String c s).
  now rewrite IH.
Qed.

Lemma substring_split (s : string) (i : nat) :
  (i <= String.length s)%nat ->
  s = String.substring 0 i s +:+ String.substring i (String.length s - i) s.
Proof.
  revert i. induction s as [|c s IH]; intros i Hi.
  - destruct i; [reflexivity | simpl in Hi; lia].
  - destruct i as [|i].
    + change (String c s = String c (String.substring 0 (String.length s) s)).
      now rewrite substring_0_all.
    + change (String c s =
              String c (String.substring 0 i s +:+
                        String.substring i (String.length s - i) s)).
      rewrite <- IH by (simpl in Hi; lia). reflexivity.
Qed.

Lemma substring_0_length (s : string) (i : nat) :
  (i <= String.length s)%nat -> String.length (String.substring 0 i s) = i.
Proof.
  revert i. induction s as [|c s IH]; intros i Hi.
  - destruct i; [reflexivity | simpl in Hi; lia].
  - destruct i as [|i]; [reflexivity|].
    change (S (String.length (String.substring 0 i s)) = S i).
    rewrite IH by (simpl in Hi; lia). reflexivity.
Qed.

Lemma string_app_inj_length (a b c d : string) :
  String.length a = String.length c -> a +:+ b = c +:+ d -> a = c /\ b = d.
Proof.
  revert c. induction a as [|x a IH]; intros c Hl E.
  - destruct c; [auto | discriminate Hl].
  - destruct c as [|y c]; [discriminate Hl|].
    injection Hl as Hl.
    change (String x (a +:+ b) = String y (c +:+ d)) in E.
    injection E as -> E. destruct (IH c Hl E) as [-> ->]. auto.
Qed.

Lemma slashes_snoc (k : nat) : slashes k +:+ "/" = slashes (S k).
Proof.
  induction k as [|k IH]; [reflexivity|].
  change (String "/"%char (slashes k +:+ "/") = String "/"%char (slashes (S k))).
  now rewrite IH.
Qed.

Lemma last_char_split (path : string) (i : nat) :
  String.length path = S i ->
  path = cut_at path i +:+ from_index path i /\
  String.length (cut_at path i) = i.
Proof.
  intros Hl. unfold cut_at, from_index. split.
  - apply substring_split. lia.
  - apply substring_0_length. lia.
Qed.

Lemma trimmed_short (path : string) :
  (String.length path <= 1)%nat -> trimmed path.
Proof.
  intros Hl q ->. rewrite string_length_app in Hl. simpl in Hl.
  destruct q; [reflexivity | simpl in Hl; lia].
Qed.

Lemma trimmed_no_separator (path : string) (i : nat) :
  String.length path = S (S i) ->
  String.eqb (from_index path (S i)) "/" = false -> trimmed path.
Proof.
  intros Hl Hne q E. exfalso.
  destruct (last_char_split path (S i) Hl) as [Hsplit Hcut].
  rewrite E in Hsplit at 1.
  apply string_app_inj_length in Hsplit as [_ Hlast].
  - rewrite <- Hlast in Hne. discriminate Hne.
  - rewrite Hcut. rewrite E in Hl. rewrite string_length_app in Hl.
    simpl in Hl. lia.
Qed.

Lemma trimPath_loop_spec (i : nat) (path : string) (slash : Z) :
  String.length path = S i ->
  exists k,
    path = fst (trimPath_loop path i slash) +:+ slashes k /\
    snd (trimPath_loop path i slash) = (if k is O then slash else TRUE) /\
    trimmed (fst (trimPath_loop path i slash)) /\
    fst (trimPath_loop path i slash) <> "".
Proof.
  revert path slash. induction i as [|i IH]; intros path slash Hl.
  - exists O. simpl. rewrite string_app_nil_r.
    split; [reflexivity|]. split; [reflexivity|].
    split; [apply trimmed_short; lia|]. intros ->. discriminate Hl.
  - simpl. destruct (String.eqb_spec (from_index path (S i)) "/") as [Hs|Hs].
    + destruct (last_char_split path (S i) Hl) as [Hsplit Hcut].
      destruct (IH (cut_at path (S i)) TRUE Hcut) as (k & E & Hsnd & Htr & Hne).
      exists (S k). split; [|split; [|split; assumption]].
      * rewrite Hsplit at 1. rewrite Hs. rewrite E at 1.
        now rewrite string_app_assoc, slashes_snoc.
      * rewrite Hsnd. now destruct k.
    + exists O. simpl. rewrite string_app_nil_r.
      split; [reflexivity|]. split; [reflexivity|]. split.
      * apply (trimmed_no_separator path i Hl). now apply String.eqb_neq.
      * intros ->. discriminate Hl.
Qed.

Lemma trimPath_loop_slashes (k : nat) (q : string) (slash : Z) :
  q <> "" -> trimmed q ->
  trimPath_loop (q +:+ slashes k) (String.length q + k - 1) slash
    = (q, if k is O then slash else TRUE).
Proof.
  intros Hq Htr. revert slash. induction k as [|k IH]; intros slash.
  - rewrite string_app_nil_r, Nat.add_0_r.
    destruct (String.length q - 1)%nat as [|i] eqn:Hi; [reflexivity|].
    simpl. destruct (String.eqb_spec (from_index q (S i)) "/") as [Hs|_];
      [|reflexivity].
    exfalso. destruct (last_char_split q (S i)) as [Hsplit Hcut]; [lia|].
    rewrite Hs in Hsplit. apply Htr in Hsplit. rewrite Hsplit in Hcut.
    discriminate Hcut.
  - assert (Hlen : String.length (q +:+ slashes k) = (String.length q + k)%nat).
    { rewrite string_length_app. f_equal. clear.
      induction k as [|k IH]; [reflexivity | simpl; now rewrite IH]. }
    assert (Hpos : (0 < String.length q)%nat).
    { destruct q; [contradiction | simpl; lia]. }
    replace (String.length q + S k - 1)%nat with (S (String.length q + k - 1))
      by lia.
    assert (Hpath : q +:+ slashes (S k) = (q +:+ slashes k) +:+ "/").
    { now rewrite string_app_assoc, slashes_snoc. }
    destruct (last_char_split (q +:+ slashes (S k)) (S (String.length q + k - 1)))
      as [Hsplit Hcut].
    { rewrite Hpath, string_length_app, Hlen. simpl. lia. }
    rewrite Hpath in Hsplit at 1.
    apply string_app_inj_length in Hsplit as [Hc Hf];
      [|rewrite Hcut, Hlen; lia].
    change (trimPath_loop (q +:+ slashes (S k))
              (S (String.length q + k - 1)) slash)
      with (if String.eqb (from_index (q +:+ slashes (S k))
                             (S (String.length q + k - 1))) "/"
            then trimPath_loop (cut_at (q +:+ slashes (S k))
                                  (S (String.length q + k - 1)))
                   (String.length q + k - 1) TRUE
            else (q +:+ slashes (S k), slash)).
    rewrite <- Hf, <- Hc, String.eqb_refl, IH. now destruct k.
Qed.

Lemma trimPath_of_slashes (k : nat) (q : string) :
  q <> "" -> trimmed q ->
  trimPath (q +:+ slashes k) = (q, if k is O then FALSE else TRUE).
Proof.
  intros Hq Htr. unfold trimPath.
  replace (String.length (q +:+ slashes k)) with (String.length q + k)%nat.
  - now apply trimPath_loop_slashes.
  - rewrite string_length_app. f_equal.
    induction k as [|k IH]; [reflexivity | simpl; now rewrite <- IH].
Qed.

(** X1. [trimPath] takes a run of trailing separators off the path and
    nothing else, and says whether there was one: the path is the result
    followed by [k] separators, the value returned is [TRUE] exactly when
    [k] is not 0, the result does not end in a separator unless it is the
    separator alone, a path that is not empty is never trimmed to the
    empty string, and trimming the result again changes nothing. *)
Theorem trimPath_takes_trailing_separators (path : string) :
  exists k,
    path = fst (trimPath path) +:+ slashes k /\
    (snd (trimPath path) = TRUE /\ k <> O \/
     snd (trimPath path) = FALSE /\ k = O) /\
    trimmed (fst (trimPath path)) /\
    (path <> "" -> fst (trimPath path) <> "") /\
    trimPath (fst (trimPath path)) = (fst (trimPath path), FALSE).
Proof.
  destruct path as [|c path].
  - exists O. repeat split; try reflexivity.
    + now right.
    + apply trimmed_short. simpl. lia.
    + intros H. contradiction.
  - unfold trimPath at 1 2 3 4 5 6.
    destruct (trimPath_loop_spec (String.length (String c path) - 1)
                (String c path) FALSE) as (k & E & Hsnd & Htr & Hne).
    { simpl. lia. }
    exists k. split; [exact E|]. split; [|split; [exact Htr|split]].
    + rewrite Hsnd. destruct k; [right | left]; auto.
    + intros _. exact Hne.
    + fold (trimPath (String c path)).
      apply (trimPath_of_slashes O) in Htr; [|exact Hne].
      rewrite string_app_nil_r in Htr. exact Htr.
Qed.

(** X2. Whatever path without trailing separator the user meant, writing
    [k] separators after it makes no difference to what is scanned:
    [trimPath] gives back that path, and returns [TRUE] exactly when a
    separator was written. *)
Theorem trimPath_recovers_path (q : string) (k : nat) :
  q <> "" -> trimmed q ->
  trimPath (q +:+ slashes k) = (q, if k is O then FALSE else TRUE).
Proof. intros Hq Htr. now apply trimPath_of_slashes. Qed.

Lemma trimPath_recovers_path_witness :
  ("a/b" : string) <> "" /\ trimmed "a/b" /\
  trimPath "a/b///" = ("a/b", TRUE) /\ trimPath "a/b" = ("a/b", FALSE).
Proof.
  assert (H1 : ("a/b" : string) <> "") by discriminate.
  assert (H2 : trimmed "a/b").
  { intros q E. destruct q as [|c1 [|c2 [|c3 q]]]; simpl in E;
      try discriminate E.
    injection E as _ _ _ E. destruct q; discriminate E. }
  split; [exact H1|]. split; [exact H2|]. split.
  - exact (trimPath_recovers_path "a/b" 3 H1 H2).
  - exact (trimPath_recovers_path "a/b" 0 H1 H2).
Defined.

(** ** The command line *)

Lemma main_same_parse (env : environment) (fuel : nat)
    (argv1 argv2 : list string) (w : world) :
  (length argv1 <= 3)%nat -> (length argv2 <= 3)%nat ->
  parseOptions (Z.of_nat (length argv1)) argv1
    = parseOptions (Z.of_nat (length argv2)) argv2 ->
  parsePath (Z.of_nat (length argv1)) argv1
    = parsePath (Z.of_nat (length argv2)) argv2 ->
  main env fuel argv1 w = main env fuel argv2 w.
Proof.
  intros H1 H2 Ho Hp. unfold main. rewrite Ho, Hp.
  destruct (Z.ltb_spec 3 (Z.of_nat (length argv1))); [lia|].
  destruct (Z.ltb_spec 3 (Z.of_nat (length argv2))); [lia|].
  reflexivity.
Qed.

(** X3. The option may stand before or after the path: [du -a d] and
    [du d -a] (likewise with [--all]) are the same run, with all files
    reported and [d] as the path. *)
Theorem option_position_irrelevant (env : environment) (fuel : nat)
    (prog flag path : string) (w : world) :
  is_all flag = true -> is_all path = false ->
  main env fuel [prog; flag; path] w = main env fuel [prog; path; flag] w /\
  parseOptions 3 [prog; flag; path] = TRUE /\
  parseOptions 3 [prog; path; flag] = TRUE /\
  parsePath 3 [prog; flag; path] = path /\
  parsePath 3 [prog; path; flag] = path.
Proof.
  intros Hf Hp.
  assert (H : parseOptions 3 [prog; flag; path] = TRUE /\
              parseOptions 3 [prog; path; flag] = TRUE /\
              parsePath 3 [prog; flag; path] = path /\
              parsePath 3 [prog; path; flag] = path).
  { unfold parseOptions, parsePath. simpl. rewrite Hf, Hp. auto. }
  split; [|exact H]. destruct H as (O1 & O2 & P1 & P2).
  apply main_same_parse; [simpl; lia | simpl; lia | |].
  - change (parseOptions 3 [prog; flag; path]
            = parseOptions 3 [prog; path; flag]). congruence.
  - change (parsePath 3 [prog; flag; path]
            = parsePath 3 [prog; path; flag]). congruence.
Qed.

Lemma option_position_irrelevant_witness :
  is_all "--all" = true /\ is_all "d" = false /\
  main Sample.env 2 [ "du"; "--all"; "d" ] Sample.start
    = main Sample.env 2 [ "du"; "d"; "--all" ] Sample.start.
Proof.
  split; [reflexivity|]. split; [reflexivity|].
  exact (proj1 (option_position_irrelevant Sample.env 2 "du" "--all" "d"
                  Sample.start eq_refl eq_refl)).
Defined.

(** X4. Of two paths on the command line only the second is used: the
    first is dropped without a message, and the run is the run on the
    second alone, directories only. *)
Theorem second_path_wins (env : environment) (fuel : nat)
    (prog path1 path2 : string) (w : world) :
  is_all path1 = false -> is_all path2 = false ->
  main env fuel [prog; path1; path2] w = main env fuel [prog; path2] w /\
  parsePath 3 [prog; path1; path2] = path2 /\
  parseOptions 3 [prog; path1; path2] = FALSE.
Proof.
  intros H1 H2.
  assert (H : parsePath 3 [prog; path1; path2] = path2 /\
              parseOptions 3 [prog; path1; path2] = FALSE).
  { unfold parseOptions, parsePath. simpl. rewrite H1, H2. auto. }
  split; [|exact H]. destruct H as [Hp Ho].
  apply main_same_parse; [simpl; lia | simpl; lia | |].
  - change (parseOptions 3 [prog; path1; path2]
            = parseOptions 2 [prog; path2]).
    rewrite Ho. unfold parseOptions. simpl. now rewrite H2.
  - change (parsePath 3 [prog; path1; path2] = parsePath 2 [prog; path2]).
    rewrite Hp. unfold parsePath. simpl. now rewrite H2.
Qed.

Lemma second_path_wins_witness :
  is_all "nowhere" = false /\ is_all "d" = false /\
  main Sample.env 2 [ "du"; "nowhere"; "d" ] Sample.start
    = main Sample.env 2 [ "du"; "d" ] Sample.start.
Proof.
  split; [reflexivity|]. split; [reflexivity|].
  exact (proj1 (second_path_wins Sample.env 2 "du" "nowhere" "d"
                  Sample.start eq_refl eq_refl)).
Defined.

(** X5. What the parsers hand to the walker, for every command line: the
    flag is [TRUE] or [FALSE] and nothing else, the path is never one of
    the option words, and it is "." or one of the arguments after the
    program name; without a path argument (no argument, or options only)
    it is ".". *)
Theorem parsed_arguments (argv : list string) :
  let argc := Z.of_nat (length argv) in
  (parseOptions argc argv = TRUE \/ parseOptions argc argv = FALSE) /\
  is_all (parsePath argc argv) = false /\
  (parsePath argc argv = "." \/ parsePath argc argv ∈ drop 1 argv) /\
  ((forall arg, arg ∈ drop 1 argv -> is_all arg = true) ->
   parsePath argc argv = ".").
Proof.
  intros argc. unfold argc, parseOptions, parsePath.
  destruct argv as [|a0 [|a1 [|a2 [|a3 rest]]]];
    [simpl | simpl | simpl | simpl |].
  - repeat split; auto.
  - repeat split; auto.
  - destruct (is_all a1) eqn:H1; simpl; repeat split; auto.
    + right. now left.
    + intros H. rewrite H in H1; [discriminate | now left].
  - destruct (is_all a2) eqn:H2, (is_all a1) eqn:H1; simpl;
      (split; [auto|]); (split; [auto|]); (split; [|intros H]);
      try (now left); try reflexivity.
    + right. now left.
    + rewrite H in H1; [discriminate | now left].
    + right. right. now left.
    + rewrite H in H2; [discriminate | right; now left].
    + right. right. now left.
    + rewrite H in H2; [discriminate | right; now left].
  - set (n := Z.of_nat (length (a0 :: a1 :: a2 :: a3 :: rest))).
    assert (Hn : 3 < n) by (unfold n; simpl length; lia).
    destruct (Z.eqb_spec n 3); [lia|]. destruct (Z.eqb_spec n 2); [lia|].
    repeat split; auto.
Qed.

(** X6. Without a path argument the current directory is scanned: [du]
    is the run [du .], and [du -a] the run [du -a .]. *)
Theorem default_path (env : environment) (fuel : nat) (prog flag : string)
    (w : world) :
  main env fuel [prog] w = main env fuel [prog; "."] w /\
  (is_all flag = true ->
   main env fuel [prog; flag] w = main env fuel [prog; flag; "."] w).
Proof.
  split.
  - apply main_same_parse; [simpl; lia | simpl; lia | reflexivity..].
  - intros Hf. apply main_same_parse; [simpl; lia | simpl; lia | |].
    + change (parseOptions 2 [prog; flag] = parseOptions 3 [prog; flag; "."]).
      unfold parseOptions. simpl. now rewrite Hf.
    + change (parsePath 2 [prog; flag] = parsePath 3 [prog; flag; "."]).
      unfold parsePath. simpl. now rewrite Hf.
Qed.

Lemma default_path_witness :
  is_all "-a" = true /\
  main Sample.env 2 [ "du"; "-a" ] Sample.start
    = main Sample.env 2 [ "du"; "-a"; "." ] Sample.start.
Proof.
  split; [reflexivity|].
  exact (proj2 (default_path Sample.env 2 "du" "-a" Sample.start) eq_refl).
Defined.

(** ** The ways a run stops *)

Lemma bind_Exit {A B} (m : M A) (k : A -> M B) w status w2 :
  bind m k w = Exit status w2 <->
  m w = Exit status w2 \/
  exists a w1, m w = Done a w1 /\ k a w1 = Exit status w2.
Proof.
  unfold bind. split.
  - destruct (m w) as [a w1|s w1| |] eqn:E; try discriminate.
    + eauto.
    + intros [= -> ->]. now left.
  - intros [-> | (a & w1 & -> & H)]; auto.
Qed.

Section Stops.

Context (env : environment).

Lemma addInode_Exit (inode : Z) (w w' : world) (status : Z) :
  addInode env inode w = Exit status w' ->
  stopped_in_growth env (stdout w) status w'.
Proof.
  unfold addInode, bind, get_visited.
  case_decide; [|discriminate].
  destruct (Z.eqb_spec (num (visited w) + 1) (cap (visited w))) as [Hfull|_];
    [|discriminate].
  destruct (_ <? _); [discriminate|].
  destruct (realloc_ok env _) eqn:Hre; [discriminate|].
  intros [= <- <-]. unfold stopped_in_growth. simpl.
  split; [reflexivity|]. split; [exists []; reflexivity|].
  split; [lia | exact Hre].
Qed.

Lemma getFileSize_Exit (file_stat : stat_t) (w w' : world) (status : Z) :
  getFileSize env file_stat w = Exit status w' ->
  stopped_in_growth env (stdout w) status w'.
Proof.
  unfold getFileSize.
  destruct (1 <? st_nlink file_stat); [|discriminate].
  unfold bind at 1, get_visited.
  destruct (negb _); [discriminate|].
  intros H. apply bind_Exit in H as [H | (u & w1 & _ & H)]; [|discriminate].
  eapply addInode_Exit, H.
Qed.

Lemma stopped_later (before out : list line) (status : Z) (w' : world) :
  stopped_in_growth env (before ++ out) status w' ->
  stopped_in_growth env before status w'.
Proof.
  intros (Hs & (o & E) & Hc & Hr). split; [exact Hs|].
  split; [|auto]. exists (out ++ o). rewrite E, <- !app_assoc. reflexivity.
Qed.

Lemma walk_Exit (fuel : nat) (path : string) (all_files : Z)
    (w w' : world) (status : Z) :
  getDirectorySize env fuel path all_files w = Exit status w' ->
  stopped_in_growth env (stdout w) status w'.
Proof.
  revert path w. induction fuel as [|fuel IH]; intros path w; simpl.
  - discriminate.
  - destruct (opendir env path) as [entries|]; [|discriminate].
    intros H. apply bind_Exit in H as [H | (t & w1 & _ & H)]; [|discriminate].
    revert H. generalize 0. revert w.
    induction entries as [|name es IHes]; intros w total; simpl.
    + discriminate.
    + intros H. apply bind_Exit in H as [H | (t1 & w1 & Hstep & H)].
      * rewrite scan_entry_classified in H.
        destruct (classify env path name); try discriminate H.
        -- apply bind_Exit in H as [H | (r & w1 & Hrec & H)];
             [eapply IH, H | discriminate H].
        -- apply bind_Exit in H as [H | (r & w1 & _ & H)];
             [eapply getFileSize_Exit, H|].
           destruct (all_files =? TRUE); discriminate H.
      * apply scan_entry_stdout in Hstep as (out & E).
        apply IHes in H. rewrite E in H. eapply stopped_later, H.
Qed.

End Stops.

(** *** Runs that are undefined *)




Section Undefined.

Context (env : environment).






End Undefined.



(** X8. How [main] ends.  With more than three words on the command line
    it prints the two usage lines and exits with status 0, whatever the
    file system holds.  Otherwise, when [stat] fails on the trimmed path
    it prints the error line and exits with status 1, and nothing is
    scanned.  It exits with status 0 in the first case only, with another
    status only as 1, and when it returns it returns 0. *)
Theorem main_outcomes (env : environment) (fuel : nat) (argv : list string)
    (w : world) :
  let path := fst (trimPath (parsePath (Z.of_nat (length argv)) argv)) in
  ((3 < length argv)%nat ->
   main env fuel argv w =
     Exit 0 {| visited := visited w;
               stdout := stdout w ++
                 [Text "Usage: du [DIRECTORY]";
                  Text "Recursively summarize disk usage for directories."] |}) /\
  ((length argv <= 3)%nat -> stat env path = None ->
   main env fuel argv w =
     Exit 1 {| visited := visited w;
               stdout := stdout w ++ [Text "Error: path does not exist"] |}) /\
  (forall status w',
      main env fuel argv w = Exit status w' ->
      (status = 0 /\ (3 < length argv)%nat) \/
      (status = 1 /\ (length argv <= 3)%nat)) /\
  (forall status w', main env fuel argv w = Done status w' -> status = 0).
Proof.
  intros path. unfold main. fold path.
  destruct (Z.ltb_spec 3 (Z.of_nat (length argv))) as [Hargs|Hargs].
  - split; [|split; [|split]].
    + intros _. cbv [bind printUsage printf exit]. simpl.
      rewrite <- app_assoc. reflexivity.
    + intros Hle. lia.
    + intros status w'. cbv [bind printUsage printf exit].
      intros [= <- _]. left. split; [reflexivity | lia].
    + intros status w'. cbv [bind printUsage printf exit]. discriminate.
  - cbv zeta. unfold doesPathExist.
    split; [intros Hgt; lia|].
    destruct (stat env path) as [path_stat|].
    + split; [discriminate|]. simpl. split.
      * intros status w' H. right. split; [|lia].
        apply bind_Exit in H as [H | (u & w1 & _ & H)]; [discriminate H|].
        apply bind_Exit in H as [H | (t & w2 & _ & H)].
        -- now apply walk_Exit in H as [-> _].
        -- cbv [bind printSize printf ret] in H. discriminate H.
      * intros status w' H.
        apply bind_Done in H as (u & w1 & _ & H).
        apply bind_Done in H as (t & w2 & _ & H).
        apply bind_Done in H as (u' & w3 & _ & [= <- _]). reflexivity.
    + simpl. split; [reflexivity|]. split.
      * intros status w'. cbv [bind printf exit]. intros [= <- _].
        right. split; [reflexivity | lia].
      * intros status w'. cbv [bind printf exit]. discriminate.
Qed.

Lemma main_outcomes_witness :
  (3 < length [ "du"; "-a"; "d"; "e" ])%nat /\
  main Sample.env 2 [ "du"; "-a"; "d"; "e" ] Sample.start =
    Exit 0 {| visited := visited Sample.start;
              stdout := [Text "Usage: du [DIRECTORY]";
                         Text "Recursively summarize disk usage for directories."] |} /\
  stat Sample.env "nowhere" = None /\
  main Sample.env 2 [ "du"; "nowhere/" ] Sample.start =
    Exit 1 {| visited := visited Sample.start;
              stdout := [Text "Error: path does not exist"] |}.
Proof.
  assert (H1 : (3 < length [ "du"; "-a"; "d"; "e" ])%nat) by (simpl; lia).
  split; [exact H1|]. split.
  - exact (proj1 (main_outcomes Sample.env 2 [ "du"; "-a"; "d"; "e" ]
                    Sample.start) H1).
  - split; [reflexivity|].
    refine (proj1 (proj2 (main_outcomes Sample.env 2 [ "du"; "nowhere/" ]
                            Sample.start)) _ eq_refl).
    simpl. lia.
Defined.

(** ** The tracker as a set *)

(** X9. On a well-formed tracker [isInodeVisited] answers [TRUE] exactly
    for the inodes recorded in the first [num] slots and [FALSE] for all
    others: what the slots beyond [num] hold (zeros from [calloc], or
    whatever [realloc] left there) is never taken for an inode.  The
    initial tracker finds nothing, not even inode 0. *)
Theorem lookup_finds_recorded (v : visited_inodes) (inode : Z) :
  tracker_ok v ->
  (isInodeVisited v inode = TRUE <-> inode ∈ recorded v) /\
  (isInodeVisited v inode = FALSE <-> inode ∉ recorded v) /\
  isInodeVisited visited_init inode = FALSE.
Proof.
  intros Hok. rewrite isInodeVisited_spec by exact Hok.
  rewrite (isInodeVisited_spec visited_init) by apply tracker_ok_init.
  rewrite recorded_init.
  split; [|split].
  - destruct (decide (inode ∈ recorded v)) as [Hin|Hout]; split; intros H;
      try assumption; try reflexivity; [discriminate H | contradiction].
  - destruct (decide (inode ∈ recorded v)) as [Hin|Hout]; split; intros H;
      try assumption; try reflexivity; [discriminate H | contradiction].
  - rewrite decide_False; [reflexivity | intros H; inversion H].
Qed.

Lemma lookup_finds_recorded_witness :
  tracker_ok (visited Sample.almost_full) /\
  isInodeVisited (visited Sample.almost_full) 15 = TRUE /\
  isInodeVisited (visited Sample.almost_full) 0 = FALSE.
Proof.
  assert (Hok : tracker_ok (visited Sample.almost_full)).
  { split; [split|]; reflexivity || discriminate. }
  split; [exact Hok|].
  destruct (lookup_finds_recorded (visited Sample.almost_full) 15 Hok)
    as (H15 & _ & _).
  destruct (lookup_finds_recorded (visited Sample.almost_full) 0 Hok)
    as (_ & H0 & _).
  split.
  - apply H15. vm_compute. do 14 right. now left.
  - apply H0. vm_compute. intros H.
    repeat (apply elem_of_cons in H as [H|H]; [discriminate H|]).
    inversion H.
Defined.

(** X10. Recording and looking up: after [addInode] has returned, the
    inode is found, and every other inode is found exactly if it was
    found before. *)
Theorem lookup_after_add (env : environment) (inode : Z) (w w' : world)
    (u : unit) :
  tracker_ok (visited w) ->
  addInode env inode w = Done u w' ->
  isInodeVisited (visited w') inode = TRUE /\
  (forall other,
      other <> inode ->
      isInodeVisited (visited w') other = isInodeVisited (visited w) other).
Proof.
  intros Hok Hadd.
  destruct (addInode_Done env inode w w' u Hok Hadd) as (Hok' & Hrec & _).
  rewrite !isInodeVisited_spec by assumption. rewrite Hrec. split.
  - rewrite decide_True; [reflexivity|]. apply elem_of_app. right. now left.
  - intros other Hne. rewrite !isInodeVisited_spec by assumption.
    rewrite Hrec.
    destruct (decide (other ∈ recorded (visited w))) as [Hin|Hout].
    + rewrite decide_True; [reflexivity|]. apply elem_of_app. now left.
    + rewrite decide_False; [reflexivity|].
      rewrite elem_of_app, list_elem_of_singleton. tauto.
Qed.

Lemma lookup_after_add_witness :
  tracker_ok (visited Sample.almost_full) /\
  exists w',
    addInode Sample.env 99 Sample.almost_full = Done tt w' /\
    isInodeVisited (visited Sample.almost_full) 99 = FALSE /\
    isInodeVisited (visited w') 99 = TRUE /\
    isInodeVisited (visited w') 3 = isInodeVisited (visited Sample.almost_full) 3.
Proof.
  assert (Hok : tracker_ok (visited Sample.almost_full)).
  { split; [split|]; reflexivity || discriminate. }
  split; [exact Hok|].
  assert (Hadd : exists w', addInode Sample.env 99 Sample.almost_full = Done tt w').
  { eexists. vm_compute. reflexivity. }
  destruct Hadd as [w' Hadd]. exists w'. split; [exact Hadd|].
  split; [reflexivity|].
  destruct (lookup_after_add Sample.env 99 Sample.almost_full w' tt Hok Hadd)
    as [Hfound Hother].
  split; [exact Hfound|]. apply Hother. discriminate.
Defined.

(** ** The shape of the array *)

Lemma cap_shape_init : cap_shape visited_init.
Proof. split; [exists O; reflexivity | now left]. Qed.

Lemma addInode_cap_shape (env : environment) (inode : Z) (w w' : world)
    (u : unit) :
  tracker_ok (visited w) -> cap_shape (visited w) ->
  addInode env inode w = Done u w' ->
  cap_shape (visited w') /\ cap (visited w) <= cap (visited w').
Proof.
  intros Hok [[k Hk] Hs]. pose proof Hok as [Hn _].
  rewrite addInode_cases by exact Hok.
  destruct (Z.eqb_spec (num (visited w) + 1) (cap (visited w))) as [Hfull|_].
  - destruct (_ <? _); [discriminate|].
    destruct (realloc_ok env _); [|discriminate].
    intros [= _ <-]. unfold cap_shape. simpl. split; [split|lia].
    + exists (S k). rewrite Hk, Nat2Z.inj_succ, Z.pow_succ_r by lia. lia.
    + right. lia.
  - intros [= _ <-]. unfold cap_shape. simpl. split; [split|lia].
    + exists k. exact Hk.
    + destruct Hs as [Hs|Hs]; [now left | right; lia].
Qed.

(** X11. The array never holds much more than is used: across every
    completed traversal that starts from a well-formed tracker of that
    shape (the initial tracker is one), the capacity stays the initial 16
    doubled some number of times, never shrinks, and beyond 16 is at most
    twice the number of inodes recorded. *)
Theorem capacity_stays_in_shape (env : environment) (fuel : nat)
    (path : string) (all_files : Z) (w w' : world) (t : Z) :
  tracker_ok (visited w) -> cap_shape (visited w) ->
  getDirectorySize env fuel path all_files w = Done t w' ->
  tracker_ok (visited w') /\ cap_shape (visited w') /\
  cap (visited w) <= cap (visited w') /\
  cap_shape visited_init.
Proof.
  intros Hok Hshape Hrun.
  enough (tracker_ok (visited w') /\ cap_shape (visited w') /\
          cap (visited w) <= cap (visited w')) as (H1 & H2 & H3).
  { auto using cap_shape_init. }
  revert Hok Hshape.
  apply (walk_invariant env all_files
           (fun w w' =>
              tracker_ok (visited w) -> cap_shape (visited w) ->
              tracker_ok (visited w') /\ cap_shape (visited w') /\
              cap (visited w) <= cap (visited w')))
    with (fuel := fuel) (path := path) (t := t); [| | | |exact Hrun]; clear.
  - intros w Hok Hs. split; [exact Hok|]. split; [exact Hs | lia].
  - intros w1 w2 w3 H12 H23 Hok Hs.
    destruct (H12 Hok Hs) as (Hok2 & Hs2 & Hle2).
    destruct (H23 Hok2 Hs2) as (Hok3 & Hs3 & Hle3).
    split; [exact Hok3|]. split; [exact Hs3 | lia].
  - intros p entries name r w _ _ _ Hok Hs. simpl.
    split; [exact Hok|]. split; [exact Hs | lia].
  - intros p entries name r w w1 _ _ _ Hfile Hok Hs.
    assert (H : tracker_ok (visited w1) /\ cap_shape (visited w1) /\
                cap (visited w) <= cap (visited w1)).
    { rewrite getFileSize_cases in Hfile by exact Hok.
      destruct (1 <? _); [case_decide|].
      - injection Hfile as _ <-. split; [exact Hok|]. split; [exact Hs | lia].
      - apply bind_Done in Hfile as (u & w2 & Hadd & [= _ <-]).
        destruct (addInode_Done env _ _ _ _ Hok Hadd) as (Hok2 & _).
        destruct (addInode_cap_shape env _ _ _ _ Hok Hs Hadd) as (Hs2 & Hle).
        auto.
      - injection Hfile as _ <-. split; [exact Hok|]. split; [exact Hs | lia]. }
    destruct (all_files =? TRUE); exact H.
Qed.

Lemma capacity_stays_in_shape_witness :
  tracker_ok (visited Sample.fresh) /\ cap_shape (visited Sample.fresh) /\
  exists w',
    getDirectorySize Sample.env 2 "d" TRUE Sample.fresh = Done 13 w' /\
    cap_shape (visited w') /\ cap (visited w') = 16.
Proof.
  assert (H1 : tracker_ok (visited Sample.fresh)) by apply tracker_ok_init.
  assert (H2 : cap_shape (visited Sample.fresh)) by apply cap_shape_init.
  split; [exact H1|]. split; [exact H2|].
  eexists. split; [reflexivity|]. split; [|reflexivity].
  exact (proj1 (proj2 (capacity_stays_in_shape Sample.env 2 "d" TRUE
                         Sample.fresh _ 13 H1 H2 eq_refl))).
Defined.

(** ** Directories that cannot be opened *)

Lemma bind_not_Done {A B} (m : M A) (k : A -> M B) (w : world) :
  (forall a w1, m w = Done a w1 -> forall b w2, k a w1 <> Done b w2) ->
  forall b w2, bind m k w <> Done b w2.
Proof.
  intros H b w2 E. apply bind_Done in E as (a & w1 & Hm & Hk).
  exact (H a w1 Hm b w2 Hk).
Qed.

Lemma scan_entries_blocked (env : environment) (recurse : string -> M Z)
    (path : string) (all_files : Z) (entries : list string) (name : string) :
  name ∈ entries -> classify env path name = Subdir ->
  (forall w t w', recurse (createPath path name) w <> Done t w') ->
  forall total w t w',
    scan_entries (scan_entry env recurse path all_files) total entries w
    <> Done t w'.
Proof.
  intros Hin Hk Hrec.
  induction entries as [|e es IH]; intros total w; simpl.
  - inversion Hin.
  - apply bind_not_Done. intros t1 w1 Hstep.
    apply elem_of_cons in Hin as [<-|Hin]; [|now apply IH].
    exfalso. rewrite scan_entry_classified, Hk in Hstep.
    apply bind_Done in Hstep as (r & w2 & Hr & _).
    exact (Hrec _ _ _ Hr).
Qed.

Lemma walk_blocked (env : environment) (path : string) :
  blocked env path ->
  forall fuel all_files w t w',
    getDirectorySize env fuel path all_files w <> Done t w'.
Proof.
  induction 1 as [path Hdir | path entries name Hdir Hin Hk _ IH];
    intros fuel af w t w'; destruct fuel as [|fuel]; simpl;
    try discriminate; rewrite Hdir; [discriminate|].
  apply bind_not_Done. intros total w1 Hscan. exfalso.
  revert Hscan. eapply scan_entries_blocked; [exact Hin | exact Hk |].
  intros w0 t0 w0'. apply IH.
Qed.

(** X12. A directory that cannot be opened is not passed over: when the
    starting directory, or any directory reached from it through
    subdirectory entries, cannot be opened, [getDirectorySize] returns no
    total at all, whatever budget, flag and tracker it is given (the call
    of [readdir] on the null stream is undefined, and no entry after it
    is scanned).  The existence check of [main] does not guard against
    this: for such a path (a regular file, say, on which [stat] succeeds)
    no run of [main] returns, so no total is printed for it. *)
Theorem unopened_directory_is_not_skipped (env : environment) (path : string) :
  blocked env path ->
  (forall fuel all_files w t w',
      getDirectorySize env fuel path all_files w <> Done t w') /\
  (forall fuel argv w status w',
      fst (trimPath (parsePath (Z.of_nat (length argv)) argv)) = path ->
      main env fuel argv w <> Done status w').
Proof.
  intros Hb. split; [now apply walk_blocked|].
  intros fuel argv w status w' Hpath. unfold main.
  destruct (3 <? Z.of_nat (length argv)); [discriminate|].
  cbv zeta. rewrite Hpath.
  destruct (doesPathExist env path); simpl; [|discriminate].
  apply bind_not_Done. intros u w1 _.
  apply bind_not_Done. intros t w2 Hrun. exfalso.
  exact (walk_blocked env path Hb _ _ _ _ _ Hrun).
Qed.

Lemma unopened_directory_is_not_skipped_witness :
  blocked Sample.locked_env "top" /\
  getDirectorySize Sample.locked_env 3 "top" FALSE Sample.fresh = Undefined /\
  main Sample.locked_env 3 [ "du"; "top/" ] Sample.start = Undefined /\
  (forall fuel w status w',
      main Sample.locked_env fuel [ "du"; "top/" ] w <> Done status w').
Proof.
  assert (H : blocked Sample.locked_env "top").
  { eapply (blocked_below _ "top" _ "locked"); [reflexivity | | reflexivity |].
    - right. right. now left.
    - apply blocked_here. reflexivity. }
  split; [exact H|]. split; [reflexivity|]. split; [reflexivity|].
  intros fuel w status w'.
  exact (proj2 (unopened_directory_is_not_skipped Sample.locked_env "top" H)
           fuel [ "du"; "top/" ] w status w' eq_refl).
Defined.

(** ** The order of the listings *)

Lemma consistent_perm (xs ys : list item) :
  xs ≡ₚ ys -> consistent xs -> consistent ys.
Proof.
  intros Hp Hc s1 s2 H1 H2. apply Hc; now rewrite Hp.
Qed.

Lemma consistent_tail (x : item) (xs : list item) :
  consistent (x :: xs) -> consistent xs.
Proof. intros Hc s1 s2 H1 H2. apply Hc; now right. Qed.

Lemma counted_swap (seen : list Z) (x y : item) (rest : list item) :
  consistent (x :: y :: rest) ->
  counted seen (y :: x :: rest) = counted seen (x :: y :: rest).
Proof.
  intros Hc.
  assert (Hsame : forall s1 s2, x = File s1 -> y = File s2 ->
                    st_ino s1 = st_ino s2 -> 1 < st_nlink s1 ->
                    1 < st_nlink s2 -> allocation s1 = allocation s2).
  { intros s1 s2 -> -> . apply Hc; [now left | right; now left]. }
  assert (Hext : forall i j, counted ((seen ++ [i]) ++ [j]) rest
                             = counted ((seen ++ [j]) ++ [i]) rest).
  { intros i j. apply counted_ext. intros s _.
    rewrite !elem_of_app, !list_elem_of_singleton. tauto. }
  destruct x as [sx|sx], y as [sy|sy]; simpl; try lia.
  - destruct (1 <? st_nlink sy); [case_decide|]; lia.
  - destruct (1 <? st_nlink sx); [case_decide|]; lia.
  - specialize (Hsame sx sy eq_refl eq_refl).
    destruct (Z.ltb_spec 1 (st_nlink sx)) as [Lx|Lx],
             (Z.ltb_spec 1 (st_nlink sy)) as [Ly|Ly];
      repeat case_decide;
      rewrite ?elem_of_app, ?list_elem_of_singleton in *;
      try lia; try tauto.
    + assert (E : st_ino sx = st_ino sy) by tauto.
      rewrite (Hsame E Lx Ly), E. reflexivity.
    + exfalso. intuition congruence.
    + exfalso. intuition congruence.
    + rewrite Hext. lia.
Qed.

Lemma counted_perm (xs ys : list item) :
  xs ≡ₚ ys -> consistent xs ->
  forall seen, counted seen xs = counted seen ys.
Proof.
  induction 1 as [|x xs ys Hp IH|x y xs|xs ys zs H1 IH1 H2 IH2]; intros Hc seen.
  - reflexivity.
  - specialize (IH (consistent_tail _ _ Hc)).
    destruct x as [s|s]; simpl; [now rewrite IH|].
    destruct (1 <? st_nlink s); [case_decide|]; now rewrite IH.
  - apply counted_swap.
    eapply consistent_perm; [|exact Hc]. apply perm_swap.
  - rewrite IH1 by exact Hc. apply IH2. eapply consistent_perm; eassumption.
Qed.

Lemma seen_after_elem (i : Z) (seen : list Z) (items : list item) :
  i ∈ seen_after seen items <->
  i ∈ seen \/ exists s, File s ∈ items /\ 1 < st_nlink s /\ st_ino s = i.
Proof.
  revert seen. induction items as [|[s|s] rest IH]; intros seen; simpl.
  - split; [auto|]. intros [H|(s & H & _)]; [exact H | inversion H].
  - rewrite IH. split; intros [H|(s' & H & Hl)]; auto.
    + right. exists s'. split; [now right | exact Hl].
    + right. exists s'. split; [|exact Hl].
      apply elem_of_cons in H as [[=]|H]. exact H.
  - assert (Hrest : (exists s', File s' ∈ File s :: rest /\ 1 < st_nlink s' /\
                                st_ino s' = i) <->
                    (1 < st_nlink s /\ st_ino s = i) \/
                    exists s', File s' ∈ rest /\ 1 < st_nlink s' /\ st_ino s' = i).
    { split.
      - intros (s' & H & Hl). apply elem_of_cons in H as [[= ->]|H]; eauto.
      - intros [Hl|(s' & H & Hl)]; [exists s | exists s'];
          (split; [|assumption]); [now left | now right]. }
    rewrite Hrest.
    destruct (Z.ltb_spec 1 (st_nlink s)) as [Ls|Ls]; [case_decide as Hin|];
      rewrite IH; rewrite ?elem_of_app, ?list_elem_of_singleton.
    + split; [tauto|]. intros [H|[[_ <-]|H]]; auto.
    + split; [intros [[H|H]|H]; auto | intros [H|[[_ H]|H]]; auto].
    + split; [tauto|]. intros [H|[[H _]|H]]; auto. lia.
Qed.

Lemma flat_map_pointwise_perm {A B} (f g : A -> list B) (l : list A) :
  (forall x, f x ≡ₚ g x) -> flat_map f l ≡ₚ flat_map g l.
Proof.
  intros H. induction l as [|x l IH]; simpl; [reflexivity|].
  now rewrite (H x), IH.
Qed.

Lemma flat_map_perm {A B} (f : A -> list B) (l1 l2 : list A) :
  l1 ≡ₚ l2 -> flat_map f l1 ≡ₚ flat_map f l2.
Proof.
  induction 1 as [|x l1 l2 _ IH|x y l|l1 l2 l3 _ IH1 _ IH2]; simpl.
  - reflexivity.
  - now rewrite IH.
  - rewrite !app_assoc. f_equiv. apply Permutation_app_comm.
  - now rewrite IH1.
Qed.

Lemma classify_reordered (env1 env2 : environment) (path name : string) :
  reordered env1 env2 -> classify env1 path name = classify env2 path name.
Proof. intros [Hl _]. unfold classify. now rewrite Hl. Qed.

Lemma census_reordered (env1 env2 : environment) (fuel : nat) (path : string) :
  reordered env1 env2 -> census env1 fuel path ≡ₚ census env2 fuel path.
Proof.
  intros Hre. revert path. induction fuel as [|fuel IH]; intros path; simpl.
  - reflexivity.
  - pose proof (proj2 Hre path) as Hdir.
    destruct (opendir env1 path) as [l1|], (opendir env2 path) as [l2|];
      try contradiction; [|reflexivity].
    rewrite (flat_map_perm _ l1 l2 Hdir).
    apply flat_map_pointwise_perm. intros name.
    rewrite (classify_reordered env1 env2 path name Hre), (proj1 Hre).
    destruct (classify env2 path name); try reflexivity. apply IH.
Qed.

(** X13. The total does not depend on the order in which [readdir] yields
    the entries: for two file systems that differ only in the order of
    their directory listings, where the names of one inode agree on its
    allocation, completed scans of the same directory from the same
    tracker return the same total, and record the same inodes. *)
Theorem total_independent_of_listing_order (env1 env2 : environment)
    (fuel : nat) (path : string) (flag1 flag2 : Z) (w w1 w2 : world)
    (t1 t2 : Z) :
  reordered env1 env2 ->
  consistent (census env1 fuel path) ->
  tracker_ok (visited w) ->
  getDirectorySize env1 fuel path flag1 w = Done t1 w1 ->
  getDirectorySize env2 fuel path flag2 w = Done t2 w2 ->
  t1 = t2 /\
  forall inode,
    inode ∈ recorded (visited w1) <-> inode ∈ recorded (visited w2).
Proof.
  intros Hre Hc Hok H1 H2.
  destruct (walk_exact env1 fuel path flag1 w w1 t1 Hok H1) as (E1 & R1 & _).
  destruct (walk_exact env2 fuel path flag2 w w2 t2 Hok H2) as (E2 & R2 & _).
  pose proof (census_reordered env1 env2 fuel path Hre) as Hp.
  split.
  - rewrite E1, E2. f_equal. now apply counted_perm.
  - intros inode. rewrite R1, R2, !seen_after_elem.
    split; (intros [H|(s & Hs & Hl)]; [now left | right; exists s]);
      (split; [|exact Hl]); [now rewrite <- Hp | now rewrite Hp].
Qed.

Lemma sample_reordered : reordered Sample.env Sample.shuffled_env.
Proof.
  split; [reflexivity|]. intros p.
  unfold Sample.env, Sample.shuffled_env, Sample.make_env, Sample.lookup,
    Sample.listings; simpl.
  destruct (String.eqb p "d"); simpl.
  { apply (bool_decide_unpack _). vm_compute. reflexivity. }
  destruct (String.eqb p "d/sub"); simpl.
  { apply (bool_decide_unpack _). vm_compute. reflexivity. }
  destruct (String.eqb p "d/lnk"); simpl; [|exact I].
  apply (bool_decide_unpack _). vm_compute. reflexivity.
Qed.

Lemma sample_consistent : consistent (census Sample.env 3 "d").
Proof.
  intros s1 s2 H1 H2 Hino _ _. vm_compute in H1, H2.
  repeat (apply elem_of_cons in H1 as [H1|H1]); try discriminate H1;
    try (now inversion H1);
    repeat (apply elem_of_cons in H2 as [H2|H2]); try discriminate H2;
    try (now inversion H2);
    injection H1 as ->; injection H2 as ->;
    first [reflexivity | discriminate Hino].
Qed.

Lemma total_independent_of_listing_order_witness :
  reordered Sample.env Sample.shuffled_env /\
  consistent (census Sample.env 3 "d") /\
  tracker_ok (visited Sample.fresh) /\
  exists w1 w2,
    getDirectorySize Sample.env 3 "d" TRUE Sample.fresh = Done 13 w1 /\
    getDirectorySize Sample.shuffled_env 3 "d" FALSE Sample.fresh
      = Done 13 w2 /\
    (7 ∈ recorded (visited w1) <-> 7 ∈ recorded (visited w2)).
Proof.
  assert (H0 : tracker_ok (visited Sample.fresh)) by apply tracker_ok_init.
  assert (H1 : exists w1,
             getDirectorySize Sample.env 3 "d" TRUE Sample.fresh = Done 13 w1).
  { eexists. vm_compute. reflexivity. }
  assert (H2 : exists w2,
             getDirectorySize Sample.shuffled_env 3 "d" FALSE Sample.fresh
             = Done 13 w2).
  { eexists. vm_compute. reflexivity. }
  destruct H1 as [w1 H1], H2 as [w2 H2].
  split; [exact sample_reordered|]. split; [exact sample_consistent|].
  split; [exact H0|]. exists w1, w2.
  split; [exact H1|]. split; [exact H2|].
  exact (proj2 (total_independent_of_listing_order
                  Sample.env Sample.shuffled_env 3 "d" TRUE FALSE Sample.fresh
                  w1 w2 13 13 sample_reordered sample_consistent H0 H1 H2) 7).
Defined.

(** ** The buffer of [createPath] *)

Lemma chars_app (a b : string) :
  String.list_ascii_of_string (a +:+ b)
  = String.list_ascii_of_string a ++ String.list_ascii_of_string b.
Proof. induction a as [|c a IH]; simpl; [reflexivity | now rewrite IH]. Qed.

Lemma chars_length (a : string) :
  length (String.list_ascii_of_string a) = String.length a.
Proof. induction a as [|c a IH]; simpl; [reflexivity | now rewrite IH]. Qed.

Lemma nul_free_app (a b : string) :
  nul_free (a +:+ b) = nul_free a && nul_free b.
Proof.
  induction a as [|c a IH]; simpl; [reflexivity|].
  now rewrite IH, andb_assoc.
Qed.

Lemma strlen_string (a : string) (rest : list ascii) :
  nul_free a = true ->
  strlen (String.list_ascii_of_string a ++ NUL :: rest)
  = Some (String.length a).
Proof.
  induction a as [|c a IH]; simpl; [reflexivity|].
  intros H. apply andb_true_iff in H as [Hc Ha].
  apply negb_true_iff in Hc. rewrite Hc, (IH Ha). reflexivity.
Qed.

Lemma string_in_string (a : string) (rest : list ascii) :
  nul_free a = true ->
  string_in (String.list_ascii_of_string a ++ NUL :: rest) = a.
Proof.
  induction a as [|c a IH]; simpl; [reflexivity|].
  intros H. apply andb_true_iff in H as [Hc Ha].
  apply negb_true_iff in Hc. rewrite Hc, (IH Ha). reflexivity.
Qed.

Lemma poke_end (cs rest : list ascii) (c0 c : ascii) :
  poke (cs ++ c0 :: rest) (length cs) c = Some ((cs ++ [c]) ++ rest).
Proof.
  unfold poke. rewrite decide_True by (rewrite length_app; simpl; lia).
  rewrite insert_app_r_alt by lia. rewrite Nat.sub_diag. simpl.
  now rewrite <- app_assoc.
Qed.

Lemma strncat_from_string (src : string) (cs : list ascii) (k : nat) :
  nul_free src = true -> (String.length src < k)%nat ->
  strncat_from (cs ++ replicate k NUL) (length cs) src (String.length src)
  = Some ((cs ++ String.list_ascii_of_string src)
          ++ replicate (k - String.length src) NUL).
Proof.
  revert cs k. induction src as [|c src IH]; intros cs k Hfree Hk.
  - destruct k as [|k]; [simpl in Hk; lia|]. simpl.
    rewrite poke_end, app_nil_r, <- app_assoc. reflexivity.
  - destruct k as [|k]; [simpl in Hk; lia|]. simpl in *.
    apply andb_true_iff in Hfree as [Hc Hfree].
    apply negb_true_iff in Hc. rewrite Hc, poke_end. simpl.
    replace (S (length cs)) with (length (cs ++ [c]))
      by (rewrite length_app; simpl; lia).
    rewrite IH by (assumption || lia).
    now rewrite <- (app_assoc cs [c]).
Qed.

Lemma strncat_string (acc src : string) (k : nat) (n : Z) :
  nul_free acc = true -> nul_free src = true ->
  n = Z.of_nat (String.length src) -> n <= INT_MAX ->
  (String.length src < S k)%nat ->
  strncat (String.list_ascii_of_string acc ++ replicate (S k) NUL) src n
  = Some (String.list_ascii_of_string (acc +:+ src)
          ++ replicate (S k - String.length src) NUL).
Proof.
  intros Hacc Hsrc -> Hn Hk. unfold strncat.
  change (replicate (S k) NUL) with (NUL :: replicate k NUL).
  rewrite (strlen_string acc _ Hacc).
  change (NUL :: replicate k NUL) with (replicate (S k) NUL).
  cbn [mbind option_bind].
  rewrite to_size_t_small by (unfold INT_MAX in Hn; lia).
  rewrite Nat2Z.id, <- (chars_length acc).
  rewrite strncat_from_string by assumption.
  now rewrite chars_app.
Qed.

(** X14. [createPath] stays inside the block it allocates.  For C strings
    (no NUL inside) whose lengths and their sum plus one fit [int], the
    three [strncat] calls all store within the block, the block is eight
    times the combined length plus one, so the joined path and its
    terminator fit with room to spare, and the string the block holds at
    the end is the path [createPath] stands for: the parent, one
    separator, the child. *)
Theorem createPath_stays_in_block (parent_path child_path : string) :
  nul_free parent_path = true -> nul_free child_path = true ->
  Z.of_nat (String.length parent_path + String.length child_path) + 1
    <= INT_MAX ->
  exists block,
    createPath_block parent_path child_path = Some block /\
    string_in block = createPath parent_path child_path /\
    length block
      = (8 * (String.length parent_path + String.length child_path + 1))%nat /\
    (String.length (createPath parent_path child_path) + 1 < length block)%nat.
Proof.
  intros Hp Hc Hfit. unfold createPath_block.
  set (P := String.length parent_path) in *.
  set (C := String.length child_path) in *.
  assert (HP : to_int (Z.of_nat P) = Z.of_nat P)
    by (apply to_int_small; unfold INT_MAX in *; lia).
  assert (HC : to_int (Z.of_nat C) = Z.of_nat C)
    by (apply to_int_small; unfold INT_MAX in *; lia).
  rewrite HP, HC.
  destruct (Z.ltb_spec INT_MAX (Z.of_nat P + Z.of_nat C + 1)) as [L|_]; [lia|].
  unfold calloc, sizeof_char_ptr.
  replace (Z.to_nat ((Z.of_nat P + Z.of_nat C + 1) * 8))
    with (S (8 * (P + C) + 7)) by lia.
  change (replicate (S (8 * (P + C) + 7)) NUL)
    with (String.list_ascii_of_string "" ++ replicate (S (8 * (P + C) + 7)) NUL).
  rewrite (strncat_string "" parent_path) by (auto; fold P; lia).
  fold P. cbn [mbind option_bind]. change ("" +:+ parent_path) with parent_path.
  replace (S (8 * (P + C) + 7) - P)%nat with (S (7 * P + 8 * C + 7)) by lia.
  rewrite (strncat_string parent_path "/")
    by (auto; unfold INT_MAX; simpl; lia).
  cbn [mbind option_bind]. change (String.length "/") with 1%nat.
  replace (S (7 * P + 8 * C + 7) - 1)%nat with (S (7 * P + 8 * C + 6)) by lia.
  rewrite (strncat_string (parent_path +:+ "/") child_path)
    by (rewrite ?nul_free_app, ?Hp; auto; fold C; lia).
  fold C. cbn [mbind option_bind].
  replace (S (7 * P + 8 * C + 6) - C)%nat with (S (7 * P + 7 * C + 6)) by lia.
  eexists. split; [reflexivity|].
  assert (Hlen : String.length (createPath parent_path child_path)
                 = (P + C + 1)%nat).
  { unfold createPath. rewrite !string_length_app. simpl. fold P C. lia. }
  split; [|split].
  - change (replicate (S (7 * P + 7 * C + 6)) NUL)
      with (NUL :: replicate (7 * P + 7 * C + 6) NUL).
    rewrite string_in_string by (rewrite !nul_free_app, Hp, Hc; reflexivity).
    unfold createPath. apply string_app_assoc.
  - rewrite length_app, chars_length, length_replicate.
    rewrite string_app_assoc. fold (createPath parent_path child_path).
    rewrite Hlen. lia.
  - rewrite length_app, chars_length, length_replicate.
    rewrite string_app_assoc. fold (createPath parent_path child_path).
    rewrite Hlen. lia.
Qed.

Lemma createPath_stays_in_block_witness :
  exists block,
    createPath_block "d" "sub" = Some block /\
    string_in block = "d/sub" /\ length block = 40%nat.
Proof.
  destruct (createPath_stays_in_block "d" "sub" eq_refl eq_refl)
    as (block & Hb & Hs & Hl & _).
  - vm_compute. discriminate.
  - exists block. split; [exact Hb|]. split; [exact Hs | exact Hl].
Defined.

(** ** One line for a path *)

Lemma siblings_disjoint (dir n m p : string) :
  slash_free n = true -> slash_free m = true ->
  within dir n p -> within dir m p -> n = m.
Proof.
  unfold within, beneath, createPath. intros Hn Hm Hp Hq.
  destruct Hp as [->|[x ->]], Hq as [E|[y E]];
    rewrite ?string_app_assoc in E; apply string_app_inv_head in E;
    simpl in E; injection E as E.
  - exact E.
  - symmetry. apply (slash_free_split m n y ""); auto.
    now rewrite string_app_nil_r.
  - apply (slash_free_split n m x ""); auto.
    now rewrite string_app_nil_r.
  - apply (slash_free_split n m x ("/" +:+ y)); eauto.
Qed.

Section OneLine.

Context (env : environment) (all_files : Z).

Lemma entry_paths_NoDup (fuel : nat) (path name : string) :
  (forall p, NoDup (printed_paths env all_files fuel p)) ->
  NoDup (entry_paths env all_files fuel path name).
Proof.
  intros IH. unfold entry_paths.
  destruct (classify env path name); try apply NoDup_nil_2.
  - apply NoDup_app. split; [apply IH|]. split; [|apply NoDup_singleton].
    intros p Hp Hq. apply list_elem_of_singleton in Hq as ->.
    apply printed_paths_beneath, beneath_length in Hp. lia.
  - destruct (all_files =? TRUE); [apply NoDup_singleton | apply NoDup_nil_2].
Qed.

Lemma printed_paths_NoDup (fuel : nat) (path : string) :
  names_ok env -> NoDup (printed_paths env all_files fuel path).
Proof.
  intros Hnames. revert path. induction fuel as [|fuel IH]; intros path.
  - apply NoDup_nil_2.
  - destruct (opendir env path) as [entries|] eqn:Hdir;
      [|simpl; rewrite Hdir; apply NoDup_nil_2].
    rewrite (printed_paths_unfold _ _ _ _ _ Hdir).
    destruct (Hnames _ _ Hdir) as [Hnd Hsf]. clear Hdir.
    induction entries as [|name es IHes]; simpl; [apply NoDup_nil_2|].
    apply NoDup_cons in Hnd as [Hnew Hnd].
    apply Forall_cons in Hsf as [Hname Hsf].
    apply NoDup_app. split; [now apply entry_paths_NoDup|].
    split; [|now apply IHes].
    intros p Hp Hq.
    apply list_elem_of_In, in_flat_map in Hq as (m & Hm & Hq).
    apply list_elem_of_In in Hm, Hq.
    apply Hnew.
    rewrite (siblings_disjoint path name m p); auto.
    + rewrite Forall_forall in Hsf. now apply Hsf.
    + eapply entry_paths_within, Hp.
    + eapply entry_paths_within, Hq.
Qed.

End OneLine.

(** X15. No path is reported twice.  On a file system that lists each
    name of a directory once and without separator, the lines a completed
    scan prints all carry different paths, and every one of them lies
    beneath the directory scanned. *)
Theorem no_path_reported_twice (env : environment) (fuel : nat)
    (path : string) (all_files : Z) (w w' : world) (t : Z) :
  names_ok env ->
  getDirectorySize env fuel path all_files w = Done t w' ->
  exists out,
    stdout w' = stdout w ++ out /\
    distinct_paths out /\
    forall size p, Report size p ∈ out -> beneath path p.
Proof.
  intros Hnames Hrun.
  destruct (walk_paths env all_files fuel path w w' t Hrun) as (out & E & R).
  exists out. split; [exact E|]. split.
  - intros i j si sj p Hi Hj.
    destruct (Forall2_lookup_l _ _ _ _ _ R Hi) as (p1 & Hp1 & s1 & [= <- <-]).
    destruct (Forall2_lookup_l _ _ _ _ _ R Hj) as (p2 & Hp2 & s2 & [= <- <-]).
    eapply NoDup_lookup; [|exact Hp1|exact Hp2].
    now apply printed_paths_NoDup.
  - intros size p Hin.
    apply list_elem_of_lookup_1 in Hin as [i Hi].
    destruct (Forall2_lookup_l _ _ _ _ _ R Hi) as (p1 & Hp1 & s1 & [= <- <-]).
    eapply printed_paths_beneath, list_elem_of_lookup_2, Hp1.
Qed.

Lemma no_path_reported_twice_witness :
  names_ok Sample.env /\
  exists w',
    getDirectorySize Sample.env 2 "d" TRUE Sample.fresh = Done 13 w' /\
    stdout w' = [ Report 4 "d/sub/c"; Report 8 "d/sub"; Report 1 "d/f";
                  Report 0 "d/a"; Report 0 "d/b" ] /\
    distinct_paths (stdout w').
Proof.
  split; [exact sample_names_ok|].
  assert (Hrun : exists w',
             getDirectorySize Sample.env 2 "d" TRUE Sample.fresh = Done 13 w' /\
             stdout w' = [ Report 4 "d/sub/c"; Report 8 "d/sub";
                           Report 1 "d/f"; Report 0 "d/a"; Report 0 "d/b" ]).
  { eexists. split; vm_compute; reflexivity. }
  destruct Hrun as (w' & Hrun & Hout). exists w'.
  split; [exact Hrun|]. split; [exact Hout|].
  destruct (no_path_reported_twice Sample.env 2 "d" TRUE Sample.fresh w' 13
              sample_names_ok Hrun) as (out & E & Hd & _).
  simpl in E. rewrite E. exact Hd.
Defined.

(** ** Sizes as printed *)

Lemma to_int_range (x : Z) : - 2 ^ 31 <= to_int x <= INT_MAX.
Proof.
  unfold to_int, INT_MAX.
  pose proof (Z.mod_pos_bound (x + 2 ^ 31) (2 ^ 32) ltac:(lia)). lia.
Qed.

Lemma to_size_t_int_sized (r : Z) :
  - 2 ^ 31 <= r <= INT_MAX -> int_sized (to_size_t r).
Proof.
  unfold int_sized, to_size_t, INT_MAX. intros H.
  destruct (Z.neg_nonneg_cases r) as [Hneg|Hpos].
  - right. replace r with (r + 2 ^ 64 - 1 * 2 ^ 64) by lia.
    rewrite Zminus_mod, Z_mod_mult, Z.sub_0_r, Z.mod_mod by lia.
    rewrite Z.mod_small; lia.
  - left. rewrite Z.mod_small; lia.
Qed.

Section PrintedSizes.

Context (env : environment).

Lemma getFileSize_int (file_stat : stat_t) (w w' : world) (r : Z) :
  getFileSize env file_stat w = Done r w' -> - 2 ^ 31 <= r <= INT_MAX.
Proof.
  unfold getFileSize.
  destruct (1 <? st_nlink file_stat).
  - unfold bind at 1, get_visited.
    destruct (negb _).
    + intros [= <- _]. unfold INT_MAX. lia.
    + intros H. apply bind_Done in H as (u & w1 & _ & [= <- _]).
      apply to_int_range.
  - intros [= <- _]. apply to_int_range.
Qed.

Lemma walk_sizes (fuel : nat) (path : string) (all_files : Z)
    (w w' : world) (t : Z) :
  getDirectorySize env fuel path all_files w = Done t w' ->
  - 2 ^ 31 <= t <= INT_MAX /\
  exists out, stdout w' = stdout w ++ out /\ Forall int_sized_line out.
Proof.
  revert path w w' t. induction fuel as [|fuel IH]; intros path w w' t; simpl.
  - discriminate.
  - destruct (opendir env path) as [entries|]; [|discriminate].
    intros H. apply bind_Done in H as (total & w1 & H & [= <- <-]).
    split; [apply to_int_range|].
    revert H. generalize 0. revert w.
    induction entries as [|name es IHes]; intros w total0; simpl.
    + intros [= _ <-]. exists []. split; [now rewrite app_nil_r | constructor].
    + intros H. apply bind_Done in H as (t1 & w2 & Hstep & Hrest).
      apply IHes in Hrest as (o2 & E2 & F2).
      enough (exists o1, stdout w2 = stdout w ++ o1 /\ Forall int_sized_line o1)
        as (o1 & E1 & F1).
      { exists (o1 ++ o2). split; [|now apply Forall_app].
        rewrite E2, E1, app_assoc. reflexivity. }
      clear E2 F2. rewrite scan_entry_classified in Hstep.
      destruct (classify env path name).
      1,2,5: injection Hstep as _ <-; exists [];
        split; [now rewrite app_nil_r | constructor].
      * apply bind_Done in Hstep as (r & w3 & Hrec & [= _ <-]).
        apply IH in Hrec as (Hr & o & E & F).
        exists (o ++ [Report (to_size_t r) (createPath path name)]).
        split; [simpl; rewrite E, app_assoc; reflexivity|].
        apply Forall_app. split; [exact F|]. repeat constructor.
        eexists _, _. split; [reflexivity|]. now apply to_size_t_int_sized.
      * apply bind_Done in Hstep as (r & w3 & Hfile & Hstep).
        apply bind_Done in Hstep as (u & w4 & Hprint & [= _ <-]).
        pose proof (getFileSize_int _ _ _ _ Hfile) as Hr.
        apply getFileSize_stdout in Hfile.
        destruct (all_files =? TRUE); injection Hprint as _ <-.
        -- eexists. simpl. rewrite Hfile. split; [reflexivity|].
           repeat constructor.
           eexists _, _. split; [reflexivity|]. now apply to_size_t_int_sized.
        -- exists []. rewrite Hfile.
           split; [now rewrite app_nil_r | constructor].
Qed.

End PrintedSizes.

(** X16. Every size printed went through an [int].  In a run of [main]
    that completes, each line written is a report whose size is below
    2^31 or at least 2^64 - 2^31 (a negative [int] read as [size_t]):
    the sizes of files, of subdirectories and the final total alike, since
    [getFileSize] and [getDirectorySize] return [int].  No size from 2^31
    to 2^64 - 2^31 - 1 is ever shown. *)
Theorem printed_sizes_are_ints (env : environment) (fuel : nat)
    (argv : list string) (w w' : world) (status : Z) :
  main env fuel argv w = Done status w' ->
  exists out,
    stdout w' = stdout w ++ out /\
    Forall int_sized_line out /\
    forall size path,
      Report size path ∈ out -> ~ 2 ^ 31 <= size < 2 ^ 64 - 2 ^ 31.
Proof.
  intros H. unfold main in H.
  destruct (3 <? Z.of_nat (length argv)); [discriminate H|]. cbv zeta in H.
  destruct (doesPathExist env _); simpl in H; [|discriminate H].
  apply bind_Done in H as (u & w1 & [= _ <-] & H).
  apply bind_Done in H as (t & w2 & Hrun & H).
  apply bind_Done in H as (u' & w3 & [= _ <-] & [= _ <-]).
  apply walk_sizes in Hrun as (Ht & out & E & F). simpl in E.
  assert (Hall : Forall int_sized_line
                   (out ++ [Report (to_size_t t)
                      (if snd (trimPath (parsePath (Z.of_nat (length argv)) argv))
                          =? TRUE
                       then fst (trimPath (parsePath (Z.of_nat (length argv)) argv))
                            +:+ "/"
                       else fst (trimPath (parsePath (Z.of_nat (length argv)) argv)))])).
  { apply Forall_app. split; [exact F|]. repeat constructor.
    eexists _, _. split; [reflexivity|]. now apply to_size_t_int_sized. }
  eexists. split; [simpl; rewrite E, <- app_assoc; reflexivity|].
  split; [exact Hall|].
  intros size p Hin. rewrite Forall_forall in Hall.
  destruct (Hall _ Hin) as (s & q & [= <- <-] & Hs).
  unfold int_sized in Hs. lia.
Qed.

Lemma printed_sizes_are_ints_witness :
  exists w',
    main Sample.big_env 2 [ "du"; "-a"; "big" ] Sample.start = Done 0 w' /\
    stdout w' = [ Report (2 ^ 64 - 2 ^ 31) "big/image";
                  Report (2 ^ 64 - 2 ^ 31 + 4) "big" ] /\
    Forall int_sized_line (stdout w').
Proof.
  assert (Hrun : exists w',
             main Sample.big_env 2 [ "du"; "-a"; "big" ] Sample.start
               = Done 0 w' /\
             stdout w' = [ Report (2 ^ 64 - 2 ^ 31) "big/image";
                           Report (2 ^ 64 - 2 ^ 31 + 4) "big" ]).
  { eexists. split; vm_compute; reflexivity. }
  destruct Hrun as (w' & Hrun & Hout). exists w'.
  split; [exact Hrun|]. split; [exact Hout|].
  destruct (printed_sizes_are_ints Sample.big_env 2 _ Sample.start w' 0 Hrun)
    as (out & E & F & _).
  simpl in E. rewrite E. exact F.
Defined.
